(** * CQueue: the circular queue, its two implementations and their properties

    The repository ships the same class twice:

    - the header-only [circular_queue] with an explicit [size] and [capacity]
      field, exceptions on misuse and [get_all_elements], [get_element_at]
      and [resize] (module [CircularQueue] below);
    - the older [library.h] / library source pair, which tracks emptiness
      with the sentinel [front == -1], has no element count, and answers a
      [dequeue] or [peek] on an empty queue with a default-constructed value
      (module [Library] below).

    Both are embedded as state transformers over a record of the class's
    data members.  C++ [int] is a 32-bit two's complement integer carried in
    [Z]; additions and subtractions are wrapped, [%] is the truncating
    remainder and is undefined for a zero divisor, and an array access
    outside the allocation is undefined behaviour. *)

From Stdlib Require Import ZArith List Lia Bool String DecimalString.
Import ListNotations.
Open Scope string_scope.
Open Scope list_scope.
Open Scope Z_scope.

(** ** Machine integers *)

Definition INT_MIN : Z := -2147483648.
Definition INT_MAX : Z := 2147483647.

Definition in_int (z : Z) : Prop := INT_MIN <= z <= INT_MAX.

(** Two's complement reduction of a mathematical result to [int]. *)
Definition int_wrap (z : Z) : Z := (z + 2147483648) mod 4294967296 - 2147483648.

Definition int_add (a b : Z) : Z := int_wrap (a + b).
Definition int_sub (a b : Z) : Z := int_wrap (a - b).

(** [std::to_string(int)]. *)
Definition int_to_string (z : Z) : string := NilZero.string_of_int (Z.to_int z).

(** ** Exceptions, outcomes and the method monad *)

Inductive exn : Type :=
| invalid_argument (what : string)
| underflow_error (what : string)
| out_of_range (what : string)
| bad_array_new_length.

(** What a call on an object in state [S] can do: return a value, leave by an
    exception (the object keeps the state it had at the [throw]), or run into
    undefined behaviour. *)
Inductive outcome (S A : Type) : Type :=
| Ret (a : A) (s : S)
| Throw (e : exn) (s : S)
| Undefined.

Arguments Ret {S A} a s.
Arguments Throw {S A} e s.
Arguments Undefined {S A}.

Definition M (S A : Type) : Type := S -> outcome S A.

Definition ret {S A} (a : A) : M S A := fun s => Ret a s.

Definition bind {S A B} (m : M S A) (k : A -> M S B) : M S B :=
  fun s => match m s with
           | Ret a s' => k a s'
           | Throw e s' => Throw e s'
           | Undefined => Undefined
           end.

Definition get {S} : M S S := fun s => Ret s s.
Definition throw {S A} (e : exn) : M S A := fun s => Throw e s.
Definition undefined {S A} : M S A := fun _ => Undefined.

Declare Scope cxx_scope.
Delimit Scope cxx_scope with cxx.
Notation "x <- m ;; k" := (bind m (fun x => k))
  (at level 61, m at next level, right associativity) : cxx_scope.
Notation "m ;; k" := (bind m (fun _ => k))
  (at level 61, right associativity) : cxx_scope.
Open Scope cxx_scope.

(** [a % b] on [int]. *)
Definition int_rem {S} (a b : Z) : M S Z :=
  if (b =? 0) || ((a =? INT_MIN) && (b =? -1)) then undefined
  else ret (Z.rem a b).

(** ** Raw arrays *)

Definition in_bounds {A} (a : list A) (i : Z) : bool :=
  (0 <=? i) && (i <? Z.of_nat (List.length a)).

(** [a[i]] as an rvalue. *)
Definition array_get {A} (a : list A) (i : Z) : option A :=
  if in_bounds a i then nth_error a (Z.to_nat i) else None.

Fixpoint list_set {A} (a : list A) (n : nat) (v : A) : list A :=
  match a, n with
  | [], _ => []
  | _ :: t, O => v :: t
  | h :: t, Datatypes.S n' => h :: list_set t n' v
  end.

(** [a[i] = v]. *)
Definition array_set {A} (a : list A) (i : Z) (v : A) : option (list A) :=
  if in_bounds a i then Some (list_set a (Z.to_nat i) v) else None.

(** The last [n] elements of [l], all of [l] when it has no more than [n]. *)
Definition keep_last {A} (n : nat) (l : list A) : list A :=
  skipn (List.length l - n) l.

(** The character [std::endl] writes. *)
Definition endl : string := String (Ascii.ascii_of_nat 10) EmptyString.

(** A callback is either null or a sink; a sink is represented by the
    messages it has been called with so far, oldest first. *)
Definition callback : Type := option (list string).

Definition call (logger : callback) (msg : string) : callback :=
  match logger with
  | Some received => Some (received ++ [msg])
  | None => None
  end.

(** ** The header-only implementation *)

Module CircularQueue.
Section Class.

Variable T : Type.
(** [T()], the value-initialised element. *)
Variable T_default : T.
(** [std::to_string] at type [T]. *)
Variable to_string : T -> string.

Record circular_queue : Type := mk {
  arr : list T;
  front : Z;
  rear : Z;
  size : Z;
  capacity : Z;
  logger : callback
}.

Definition set_arr (a : list T) : M circular_queue unit :=
  fun q => Ret tt (mk a (front q) (rear q) (size q) (capacity q) (logger q)).
Definition set_front (z : Z) : M circular_queue unit :=
  fun q => Ret tt (mk (arr q) z (rear q) (size q) (capacity q) (logger q)).
Definition set_rear (z : Z) : M circular_queue unit :=
  fun q => Ret tt (mk (arr q) (front q) z (size q) (capacity q) (logger q)).
Definition set_size (z : Z) : M circular_queue unit :=
  fun q => Ret tt (mk (arr q) (front q) (rear q) z (capacity q) (logger q)).
Definition set_capacity (z : Z) : M circular_queue unit :=
  fun q => Ret tt (mk (arr q) (front q) (rear q) (size q) z (logger q)).

(** [if (logger) logger(msg);] *)
Definition notify (msg : string) : M circular_queue unit :=
  fun q => Ret tt (mk (arr q) (front q) (rear q) (size q) (capacity q)
                      (call (logger q) msg)).

(** [arr[i]] read. *)
Definition load (i : Z) : M circular_queue T :=
  fun q => match array_get (arr q) i with
           | Some x => Ret x q
           | None => Undefined
           end.

(** [arr[i] = v]. *)
Definition store (i : Z) (v : T) : M circular_queue unit :=
  fun q => match array_set (arr q) i v with
           | Some a => Ret tt (mk a (front q) (rear q) (size q) (capacity q) (logger q))
           | None => Undefined
           end.

(** [circular_queue(int n, callback)]: the member initialisers run first
    ([size] takes its default member initialiser [0]), then the capacity
    check, then the allocation, which value-initialises every slot. *)
Definition construct (n : Z) (cb : callback) : exn + circular_queue :=
  if n <=? 0 then inl (invalid_argument "Queue capacity must be greater than 0.")
  else inr (mk (repeat T_default (Z.to_nat n)) (-1) (-1) 0 n cb).

Definition is_full : M circular_queue bool :=
  q <- get ;; ret (size q =? capacity q).

Definition is_empty : M circular_queue bool :=
  q <- get ;; ret (size q =? 0).

Definition enqueue (value : T) : M circular_queue unit :=
  full <- is_full ;;
  (if full : bool then
     q <- get ;;
     f <- int_rem (int_add (front q) 1) (capacity q) ;;
     set_front f ;;
     q <- get ;;
     set_size (int_sub (size q) 1)
   else ret tt) ;;
  empty <- is_empty ;;
  (if empty : bool then
     set_rear 0 ;; set_front 0
   else
     q <- get ;;
     r <- int_rem (int_add (rear q) 1) (capacity q) ;;
     set_rear r) ;;
  q <- get ;;
  store (rear q) value ;;
  q <- get ;;
  set_size (int_add (size q) 1) ;;
  notify ("Enqueued: " ++ to_string value)%string.

Definition dequeue : M circular_queue T :=
  empty <- is_empty ;;
  if empty : bool then throw (underflow_error "Queue is empty")
  else
    q <- get ;;
    value <- load (front q) ;;
    (if front q =? rear q then
       set_rear (-1) ;; set_front (-1)
     else
       f <- int_rem (int_add (front q) 1) (capacity q) ;;
       set_front f) ;;
    q <- get ;;
    set_size (int_sub (size q) 1) ;;
    notify ("Dequeued: " ++ to_string value)%string ;;
    ret value.

Definition peek : M circular_queue T :=
  empty <- is_empty ;;
  if empty : bool then throw (underflow_error "Queue is empty")
  else q <- get ;; load (front q).

Definition clear : M circular_queue unit :=
  set_rear (-1) ;; set_front (-1) ;;
  set_size 0 ;;
  notify "Queue cleared".

(** The body of [for (int i = ...; i < size; ++i) elements.push_back(...)],
    with [n] iterations left. *)
Fixpoint get_all_elements_loop (n : nat) (i : Z) (elements : list T)
  : M circular_queue (list T) :=
  match n with
  | O => ret elements
  | Datatypes.S n' =>
      q <- get ;;
      idx <- int_rem (int_add (front q) i) (capacity q) ;;
      x <- load idx ;;
      get_all_elements_loop n' (int_add i 1) (elements ++ [x])
  end.

Definition get_all_elements : M circular_queue (list T) :=
  q <- get ;;
  get_all_elements_loop (Z.to_nat (size q)) 0 [].

Definition get_element_at (index : Z) : M circular_queue T :=
  q <- get ;;
  if (index <? 0) || (index >=? size q) then throw (out_of_range "Index out of range")
  else
    idx <- int_rem (int_add (front q) index) (capacity q) ;;
    load idx.

(** The copy loop of [resize], writing into the local [new_arr]. *)
Fixpoint resize_loop (n : nat) (i : Z) (new_arr : list T)
  : M circular_queue (list T) :=
  match n with
  | O => ret new_arr
  | Datatypes.S n' =>
      q <- get ;;
      idx <- int_rem (int_add (front q) i) (capacity q) ;;
      x <- load idx ;;
      match array_set new_arr i x with
      | Some new_arr' => resize_loop n' (int_add i 1) new_arr'
      | None => undefined
      end
  end.

(** [resize]; an allocation of negative length, which the size check lets
    through only if [size] itself is negative, is refused by the allocator. *)
Definition resize (new_capacity : Z) : M circular_queue unit :=
  q <- get ;;
  if new_capacity <? size q then
    throw (invalid_argument "New capacity cannot be less than the current size")
  else if new_capacity <? 0 then throw bad_array_new_length
  else
    new_arr <- resize_loop (Z.to_nat (size q)) 0
                 (repeat T_default (Z.to_nat new_capacity)) ;;
    set_arr new_arr ;;
    set_capacity new_capacity ;;
    set_front 0 ;;
    q <- get ;;
    set_rear (int_sub (size q) 1) ;;
    notify ("Queue resized to capacity: " ++ int_to_string new_capacity)%string.

Definition get_size : M circular_queue Z := q <- get ;; ret (size q).
Definition get_capacity : M circular_queue Z := q <- get ;; ret (capacity q).

(** [operator<<] at type [T]: the characters it writes. *)
Variable print : T -> string.

(** The body of the [for] loop of [display], with [n] iterations left; [out]
    is what [std::cout] has been sent so far. *)
Fixpoint display_loop (n : nat) (i : Z) (out : string) : M circular_queue string :=
  match n with
  | O => ret out
  | Datatypes.S n' =>
      q <- get ;;
      idx <- int_rem (int_add (front q) i) (capacity q) ;;
      x <- load idx ;;
      display_loop n' (int_add i 1) (out ++ print x ++ " ")%string
  end.

(** [display()], as a transformer of what [std::cout] has been sent. *)
Definition display (out : string) : M circular_queue string :=
  empty <- is_empty ;;
  if empty : bool then ret (out ++ "Queue is empty" ++ endl)%string
  else
    q <- get ;;
    out' <- display_loop (Z.to_nat (size q)) 0 (out ++ "Queue elements: ")%string ;;
    ret (out' ++ endl)%string.

(** [n] calls of [dequeue] in a row, collecting what they return. *)
Fixpoint dequeue_n (n : nat) : M circular_queue (list T) :=
  match n with
  | O => ret []
  | Datatypes.S n' =>
      x <- dequeue ;;
      xs <- dequeue_n n' ;;
      ret (x :: xs)
  end.

(** *** Representation invariant and call interface *)

(** The state every method relies on: the allocation has [capacity] slots,
    a positive [int] number of them, [size] of them are occupied, and while
    the queue is non-empty [front] is a slot index and [rear] lies [size - 1]
    slots after it. *)
Definition wf (q : circular_queue) : Prop :=
  Z.of_nat (List.length (arr q)) = capacity q /\
  1 <= capacity q <= INT_MAX /\
  0 <= size q <= capacity q /\
  (0 < size q ->
   0 <= front q < capacity q /\
   rear q = (front q + size q - 1) mod capacity q).

(** [front + i] stays an [int] for every [i < size]: capacities up to 2^30. *)
Definition index_safe (q : circular_queue) : Prop :=
  2 * capacity q - 2 <= INT_MAX.

(** The slot of the [i]-th oldest element. *)
Definition slot (q : circular_queue) (i : Z) : Z :=
  (front q + i) mod capacity q.

(** The queue as a sequence, oldest element first: what the slots
    [front], [front + 1], ... hold, read off the representation. *)
Definition contents (q : circular_queue) : list T :=
  map (fun i => nth (Z.to_nat (slot q (Z.of_nat i))) (arr q) T_default)
      (seq 0 (Z.to_nat (size q))).

(** The public methods as data, to speak about arbitrary call sequences. *)
Inductive method : Type :=
| Enqueue (value : T)
| Dequeue
| Peek
| GetElementAt (index : Z)
| GetAllElements
| Clear
| Resize (new_capacity : Z)
| IsFull
| IsEmpty
| GetSize
| GetCapacity.

Inductive value : Type :=
| VVoid
| VElem (x : T)
| VElems (l : list T)
| VBool (b : bool)
| VInt (z : Z).

Definition invoke (m : method) : M circular_queue value :=
  match m with
  | Enqueue v => enqueue v ;; ret VVoid
  | Dequeue => x <- dequeue ;; ret (VElem x)
  | Peek => x <- peek ;; ret (VElem x)
  | GetElementAt i => x <- get_element_at i ;; ret (VElem x)
  | GetAllElements => l <- get_all_elements ;; ret (VElems l)
  | Clear => clear ;; ret VVoid
  | Resize k => resize k ;; ret VVoid
  | IsFull => b <- is_full ;; ret (VBool b)
  | IsEmpty => b <- is_empty ;; ret (VBool b)
  | GetSize => z <- get_size ;; ret (VInt z)
  | GetCapacity => z <- get_capacity ;; ret (VInt z)
  end.

(** The message a returning call hands to the callback, if it hands one. *)
Definition event_of (m : method) (r : value) : list string :=
  match m, r with
  | Enqueue v, _ => [("Enqueued: " ++ to_string v)%string]
  | Dequeue, VElem x => [("Dequeued: " ++ to_string x)%string]
  | Clear, _ => ["Queue cleared"%string]
  | Resize k, _ => [("Queue resized to capacity: " ++ int_to_string k)%string]
  | _, _ => []
  end.

(** The methods that change the queue. *)
Definition mutating (m : method) : bool :=
  match m with
  | Enqueue _ | Dequeue | Clear | Resize _ => true
  | _ => false
  end.

(** [int] parameters carry [int] values. *)
Definition int_args (m : method) : Prop :=
  match m with
  | GetElementAt i => in_int i
  | Resize k => in_int k
  | _ => True
  end.

(** The state a call leaves behind, when it leaves one. *)
Definition state_after {A} (o : outcome circular_queue A) : option circular_queue :=
  match o with
  | Ret _ q => Some q
  | Throw _ q => Some q
  | Undefined => None
  end.

(** States a caller can bring a queue into: a successful construction
    followed by any calls, returning or throwing. *)
Inductive reachable : circular_queue -> Prop :=
| reachable_construct n cb q :
    in_int n -> construct n cb = inr q -> reachable q
| reachable_invoke m q q' :
    reachable q -> int_args m -> state_after (invoke m q) = Some q' ->
    reachable q'.

(** [enqueue] of each value of [vs] in turn. *)
Fixpoint enqueue_all (vs : list T) : M circular_queue unit :=
  match vs with
  | [] => ret tt
  | v :: vs' => enqueue v ;; enqueue_all vs'
  end.

End Class.
End CircularQueue.

(** ** The [library.h] implementation *)

Module Library.
Section Class.

Variable T : Type.
(** [T()], returned by [dequeue] and [peek] on an empty queue. *)
Variable T_default : T.
(** [std::to_string] at type [T]. *)
Variable to_string : T -> string.

(** [new T[size]] default-initialises: a slot holds an indeterminate value
    ([None]) until it is first assigned, and reading it is undefined. *)
Record circular_queue : Type := mk {
  arr : list (option T);
  front : Z;
  rear : Z;
  size : Z;
  logger : callback
}.

Definition set_front (z : Z) : M circular_queue unit :=
  fun q => Ret tt (mk (arr q) z (rear q) (size q) (logger q)).
Definition set_rear (z : Z) : M circular_queue unit :=
  fun q => Ret tt (mk (arr q) (front q) z (size q) (logger q)).

(** [if (logger) logger(msg);] *)
Definition notify (msg : string) : M circular_queue unit :=
  fun q => Ret tt (mk (arr q) (front q) (rear q) (size q) (call (logger q) msg)).

Definition load (i : Z) : M circular_queue T :=
  fun q => match array_get (arr q) i with
           | Some (Some x) => Ret x q
           | _ => Undefined
           end.

Definition store (i : Z) (v : T) : M circular_queue unit :=
  fun q => match array_set (arr q) i (Some v) with
           | Some a => Ret tt (mk a (front q) (rear q) (size q) (logger q))
           | None => Undefined
           end.

(** [if (logger) logger(std::to_string(arr[i]));] reads the slot only when a
    callback is set. *)
Definition notify_slot (prefix : string) (i : Z) : M circular_queue unit :=
  q <- get ;;
  match logger q with
  | Some _ => x <- load i ;; notify (prefix ++ to_string x)%string
  | None => ret tt
  end.

(** The constructor has no capacity check; [new T[size]] itself refuses a
    negative length. *)
Definition construct (n : Z) (cb : callback) : exn + circular_queue :=
  if n <? 0 then inl bad_array_new_length
  else inr (mk (repeat None (Z.to_nat n)) (-1) (-1) n cb).

Definition is_full : M circular_queue bool :=
  q <- get ;;
  r <- int_rem (int_add (rear q) 1) (size q) ;;
  ret (r =? front q).

Definition is_empty : M circular_queue bool :=
  q <- get ;; ret (front q =? -1).

Definition dequeue : M circular_queue T :=
  empty <- is_empty ;;
  if empty : bool then
    notify "Queue is empty! Cannot dequeue." ;;
    ret T_default
  else
    q <- get ;;
    value <- load (front q) ;;
    (if front q =? rear q then
       set_rear (-1) ;; set_front (-1)
     else
       f <- int_rem (int_add (front q) 1) (size q) ;;
       set_front f) ;;
    notify ("Dequeued: " ++ to_string value)%string ;;
    ret value.

Definition enqueue (value : T) : M circular_queue unit :=
  full <- is_full ;;
  (if full : bool then _ <- dequeue ;; ret tt else ret tt) ;;
  q <- get ;;
  (if front q =? -1 then set_front 0 else ret tt) ;;
  q <- get ;;
  r <- int_rem (int_add (rear q) 1) (size q) ;;
  set_rear r ;;
  q <- get ;;
  store (rear q) value ;;
  notify ("Enqueued: " ++ to_string value)%string.

Definition peek : M circular_queue T :=
  empty <- is_empty ;;
  if empty : bool then
    notify "Queue is empty! No front element." ;;
    ret T_default
  else
    q <- get ;;
    notify_slot "Peeked at: " (front q) ;;
    load (front q).

Definition clear : M circular_queue unit :=
  set_rear (-1) ;; set_front (-1) ;;
  notify "Queue cleared.".

(** [while (i != rear) { ...; i = (i + 1) % size; }] of [display].  The loop
    is not bounded by its text, so the model counts iterations down from
    [fuel] and answers [None] when they are used up. *)
Fixpoint display_loop (fuel : nat) (i : Z) (q : circular_queue)
  : option (outcome circular_queue unit) :=
  if i =? rear q then Some (Ret tt q)
  else match fuel with
       | O => None
       | Datatypes.S fuel' =>
           match (notify_slot EmptyString i ;; int_rem (int_add i 1) (size q)) q with
           | Ret i' q' => display_loop fuel' i' q'
           | Throw e q' => Some (Throw e q')
           | Undefined => Some Undefined
           end
       end.

Definition display (fuel : nat) (q : circular_queue)
  : option (outcome circular_queue unit) :=
  if front q =? -1 then Some (notify "Queue is empty!" q)
  else match display_loop fuel (front q) q with
       | Some (Ret _ q') =>
           Some ((notify_slot EmptyString (rear q') ;; notify "Displayed queue elements.") q')
       | other => other
       end.

(** *** The logical sequence *)

(** The class keeps no element count; this is the number of slots from
    [front] to [rear], both included, going round the array. *)
Definition count (q : circular_queue) : Z :=
  if front q =? -1 then 0 else (rear q - front q) mod size q + 1.

(** The slots from [front] to [rear] in the order [display] visits them. *)
Definition contents (q : circular_queue) : list (option T) :=
  map (fun i => nth (Z.to_nat ((front q + Z.of_nat i) mod size q)) (arr q) None)
      (seq 0 (Z.to_nat (count q))).

End Class.
End Library.

(** ** The two implementations side by side *)

Module Variants.
Section Compare.

Variable T : Type.
Variable T_default : T.
Variable to_string : T -> string.

(** The calls both classes offer with the same signature. *)
Inductive op : Type :=
| OpEnqueue (value : T)
| OpDequeue
| OpPeek
| OpClear.

(** What the caller gets back from one call. *)
Inductive reply : Type :=
| Returned (x : option T)
| Threw (e : exn).

Definition header_call (o : op) : M (CircularQueue.circular_queue T) (option T) :=
  match o with
  | OpEnqueue v => CircularQueue.enqueue T to_string v ;; ret None
  | OpDequeue => x <- CircularQueue.dequeue T to_string ;; ret (Some x)
  | OpPeek => x <- CircularQueue.peek T ;; ret (Some x)
  | OpClear => CircularQueue.clear T ;; ret None
  end.

Definition library_call (o : op) : M (Library.circular_queue T) (option T) :=
  match o with
  | OpEnqueue v => Library.enqueue T T_default to_string v ;; ret None
  | OpDequeue => x <- Library.dequeue T T_default to_string ;; ret (Some x)
  | OpPeek => x <- Library.peek T T_default to_string ;; ret (Some x)
  | OpClear => Library.clear T ;; ret None
  end.

(** A caller that catches what is thrown and carries on with the same
    object; the run as a whole is undefined ([None]) once a call is. *)
Fixpoint run {S} (call : op -> M S (option T)) (ops : list op) (s : S)
  : option (list reply * S) :=
  match ops with
  | [] => Some ([], s)
  | o :: ops' =>
      match call o s with
      | Ret x s' =>
          match run call ops' s' with
          | Some (rs, s'') => Some (Returned x :: rs, s'')
          | None => None
          end
      | Throw e s' =>
          match run call ops' s' with
          | Some (rs, s'') => Some (Threw e :: rs, s'')
          | None => None
          end
      | Undefined => None
      end
  end.

(** What the caller sees of a run: the replies in order. *)
Definition replies {S} (call : op -> M S (option T)) (ops : list op) (s : S)
  : option (list reply) :=
  option_map fst (run call ops s).

(** Replies that are equal, or differ the one way the classes differ on an
    empty queue: the header throws where the library returns [T()]. *)
Definition agree (r1 r2 : reply) : Prop :=
  r1 = r2 \/
  (r1 = Threw (underflow_error "Queue is empty") /\ r2 = Returned (Some T_default)).

(** The correspondence between a header queue and a library queue that have
    seen the same calls. *)
Definition sim (q1 : CircularQueue.circular_queue T) (q2 : Library.circular_queue T)
  : Prop :=
  CircularQueue.wf T q1 /\
  Library.size T q2 = CircularQueue.capacity T q1 /\
  Library.front T q2 = CircularQueue.front T q1 /\
  Library.rear T q2 = CircularQueue.rear T q1 /\
  (CircularQueue.size T q1 = 0 ->
   CircularQueue.front T q1 = -1 /\ CircularQueue.rear T q1 = -1) /\
  List.length (Library.arr T q2) = List.length (CircularQueue.arr T q1) /\
  (forall p, 0 <= p < CircularQueue.capacity T q1 ->
     (p - CircularQueue.front T q1) mod CircularQueue.capacity T q1
       < CircularQueue.size T q1 ->
     nth (Z.to_nat p) (Library.arr T q2) None
       = Some (nth (Z.to_nat p) (CircularQueue.arr T q1) T_default)).

End Compare.
End Variants.

(** * Properties *)

(** ** Integers and arrays *)

Lemma int_wrap_id (z : Z) : in_int z -> int_wrap z = z.
Proof.
  unfold in_int, INT_MIN, INT_MAX, int_wrap. intros H.
  rewrite Z.mod_small; lia.
Qed.

Lemma int_add_id (a b : Z) : in_int (a + b) -> int_add a b = a + b.
Proof. apply int_wrap_id. Qed.

Lemma int_sub_id (a b : Z) : in_int (a - b) -> int_sub a b = a - b.
Proof. apply int_wrap_id. Qed.

Lemma int_rem_mod {S} (a b : Z) (s : S) :
  0 <= a -> 0 < b -> int_rem a b s = Ret (a mod b) s.
Proof.
  intros Ha Hb. unfold int_rem.
  destruct (Z.eqb_spec b 0); [lia|].
  destruct (Z.eqb_spec b (-1)); [lia|].
  rewrite andb_false_r. cbn. unfold ret. now rewrite Z.rem_mod_nonneg.
Qed.

Lemma list_set_length {A} (a : list A) n v :
  List.length (list_set a n v) = List.length a.
Proof.
  revert n; induction a as [|h t IH]; intros [|n]; cbn; auto.
Qed.

Lemma nth_list_set_same {A} (a : list A) n v d :
  (n < List.length a)%nat -> nth n (list_set a n v) d = v.
Proof.
  revert n; induction a as [|h t IH]; intros [|n] H; cbn in *; try lia; auto.
  apply IH; lia.
Qed.

Lemma nth_list_set_other {A} (a : list A) n m v d :
  n <> m -> nth m (list_set a n v) d = nth m a d.
Proof.
  revert n m; induction a as [|h t IH]; intros [|n] [|m] H; cbn; auto; try lia.
Qed.

Lemma array_get_nth {A} (a : list A) i d :
  0 <= i < Z.of_nat (List.length a) ->
  array_get a i = Some (nth (Z.to_nat i) a d).
Proof.
  intros H. unfold array_get, in_bounds.
  destruct (Z.leb_spec 0 i); [|lia].
  destruct (Z.ltb_spec i (Z.of_nat (List.length a))); [|lia].
  cbn. apply nth_error_nth'. lia.
Qed.

Lemma array_set_in {A} (a : list A) i v :
  0 <= i < Z.of_nat (List.length a) ->
  array_set a i v = Some (list_set a (Z.to_nat i) v).
Proof.
  intros H. unfold array_set, in_bounds.
  destruct (Z.leb_spec 0 i); [|lia].
  destruct (Z.ltb_spec i (Z.of_nat (List.length a))); [|lia].
  reflexivity.
Qed.

(** Two offsets less than a full turn apart land on different slots. *)
Lemma mod_offset_neq (f i j c : Z) :
  0 < c -> 0 <= i < j -> j - i < c -> (f + i) mod c <> (f + j) mod c.
Proof.
  intros Hc Hij Hd E.
  assert (H : (f + j - (f + i)) mod c = 0).
  { rewrite Zminus_mod, E, Z.sub_diag. apply Z.mod_0_l. lia. }
  replace (f + j - (f + i)) with (j - i) in H by lia.
  rewrite Z.mod_small in H; lia.
Qed.

(** ** The header-only implementation *)

Section CircularQueueProperties.
Import CircularQueue.
Variable T : Type.
Variable T_default : T.
Variable to_string : T -> string.

Arguments int_add : simpl never.
Arguments int_sub : simpl never.
Arguments int_rem : simpl never.
Arguments array_get : simpl never.
Arguments array_set : simpl never.
Arguments Z.modulo : simpl never.
Arguments Z.add : simpl never.
Arguments Z.sub : simpl never.
Arguments Z.mul : simpl never.
Arguments Z.eqb : simpl never.
Arguments Z.ltb : simpl never.
Arguments Z.leb : simpl never.
Arguments Z.geb : simpl never.
Arguments Z.of_nat : simpl never.
Arguments Z.to_nat : simpl never.
Arguments String.append : simpl never.

Ltac unfold_cxx :=
  unfold bind, get, ret, throw, undefined,
    set_arr, set_front, set_rear, set_size, set_capacity, notify, load, store in *.

Ltac int_ok := unfold in_int, INT_MIN, INT_MAX in *; lia.

Lemma enqueue_ret (q : circular_queue T) (v : T) :
  wf T q ->
  enqueue T to_string v q =
  Ret tt (mk T
    (list_set (arr T q) (Z.to_nat (if size T q =? 0 then 0 else (rear T q + 1) mod capacity T q)) v)
    (if size T q =? capacity T q then (front T q + 1) mod capacity T q
     else if size T q =? 0 then 0 else front T q)
    (if size T q =? 0 then 0 else (rear T q + 1) mod capacity T q)
    (if size T q =? capacity T q then size T q else size T q + 1)
    (capacity T q)
    (call (logger T q) ("Enqueued: " ++ to_string v)%string)).
Proof.
  intros (Hlen & Hcap & Hsz & Hidx).
  destruct q as [a f r s c lg]; cbn in *.
  unfold enqueue, is_full, is_empty. unfold_cxx. cbn.
  destruct (Z.eqb_spec s c) as [E|E].
  - subst s. destruct Hidx as [Hf Hr]; [lia|]. cbn.
    rewrite int_add_id by int_ok. rewrite int_rem_mod by lia. cbn.
    rewrite int_sub_id by int_ok.
    destruct (Z.eqb_spec c 0); [lia|].
    destruct (Z.eqb_spec (c - 1) 0) as [E1|E1]; cbn.
    + assert (Hc1 : c = 1) by lia. rewrite Hc1 in *.
      rewrite array_set_in by lia. cbn.
      rewrite int_add_id by int_ok.
      rewrite !Z.mod_1_r. reflexivity.
    + assert (0 <= r < c) by (subst r; apply Z.mod_pos_bound; lia).
      rewrite int_add_id by int_ok. rewrite int_rem_mod by lia. cbn.
      rewrite array_set_in by (pose proof (Z.mod_pos_bound (r + 1) c); lia).
      cbn. rewrite int_add_id by int_ok. repeat f_equal. lia.
  - cbn. destruct (Z.eqb_spec s 0) as [E0|E0]; cbn.
    + rewrite array_set_in by lia. cbn. subst s. rewrite int_add_id by int_ok.
      reflexivity.
    + destruct Hidx as [Hf Hr]; [lia|].
      assert (0 <= r < c) by (subst r; apply Z.mod_pos_bound; lia).
      rewrite int_add_id by int_ok. rewrite int_rem_mod by lia. cbn.
      rewrite array_set_in by (pose proof (Z.mod_pos_bound (r + 1) c); lia).
      cbn. rewrite int_add_id by int_ok. reflexivity.
Qed.

Lemma dequeue_empty (q : circular_queue T) :
  size T q = 0 ->
  dequeue T to_string q = Throw (underflow_error "Queue is empty") q.
Proof.
  intros E. unfold dequeue, is_empty. unfold_cxx. cbn. now rewrite E.
Qed.

Lemma dequeue_ret (q : circular_queue T) :
  wf T q -> 0 < size T q ->
  dequeue T to_string q =
  Ret (nth (Z.to_nat (front T q)) (arr T q) T_default)
      (mk T (arr T q)
         (if size T q =? 1 then -1 else (front T q + 1) mod capacity T q)
         (if size T q =? 1 then -1 else rear T q)
         (size T q - 1)
         (capacity T q)
         (call (logger T q)
            ("Dequeued: " ++ to_string (nth (Z.to_nat (front T q)) (arr T q) T_default))%string)).
Proof.
  intros (Hlen & Hcap & Hsz & Hidx) Hpos.
  destruct Hidx as [Hf Hr]; [lia|].
  destruct q as [a f r s c lg]; cbn in *.
  unfold dequeue, is_empty. unfold_cxx. cbn.
  destruct (Z.eqb_spec s 0); [lia|]. cbn.
  rewrite (array_get_nth a f T_default) by lia. cbn.
  destruct (Z.eqb_spec f r) as [E|E]; cbn.
  - rewrite int_sub_id by int_ok. destruct (Z.eqb_spec s 1) as [E1|E1]; [reflexivity|].
    exfalso. subst r.
    apply (mod_offset_neq f 0 (s - 1) c); try lia.
    rewrite Z.add_0_r, Z.mod_small by lia.
    rewrite E at 1. f_equal. lia.
  - destruct (Z.eqb_spec s 1) as [E1|E1].
    + exfalso. apply E. subst r s.
      replace (f + 1 - 1) with f by lia. now rewrite Z.mod_small by lia.
    + rewrite int_add_id by int_ok. rewrite int_rem_mod by lia. cbn.
      rewrite int_sub_id by int_ok. reflexivity.
Qed.

Lemma peek_empty (q : circular_queue T) :
  size T q = 0 -> peek T q = Throw (underflow_error "Queue is empty") q.
Proof.
  intros E. unfold peek, is_empty. unfold_cxx. cbn. now rewrite E.
Qed.

Lemma peek_ret (q : circular_queue T) :
  wf T q -> 0 < size T q ->
  peek T q = Ret (nth (Z.to_nat (front T q)) (arr T q) T_default) q.
Proof.
  intros (Hlen & Hcap & Hsz & Hidx) Hpos.
  destruct Hidx as [Hf Hr]; [lia|].
  unfold peek, is_empty. unfold_cxx. cbn.
  destruct (Z.eqb_spec (size T q) 0); [lia|]. cbn.
  now rewrite (array_get_nth _ _ T_default) by lia.
Qed.

Lemma clear_ret (q : circular_queue T) :
  clear T q = Ret tt (mk T (arr T q) (-1) (-1) 0 (capacity T q)
                        (call (logger T q) "Queue cleared")).
Proof. reflexivity. Qed.

(** The element the model reads at logical position [i]. *)
Lemma nth_contents (q : circular_queue T) (i : nat) :
  (i < Z.to_nat (size T q))%nat ->
  nth i (contents T T_default q) T_default =
  nth (Z.to_nat (slot T q (Z.of_nat i))) (arr T q) T_default.
Proof.
  intros H. unfold contents.
  rewrite (nth_indep _ T_default (nth (Z.to_nat (slot T q (Z.of_nat 0))) (arr T q) T_default)).
  2: { now rewrite length_map, length_seq. }
  rewrite (map_nth (fun i => nth (Z.to_nat (slot T q (Z.of_nat i))) (arr T q) T_default)
             (seq 0 (Z.to_nat (size T q))) 0%nat i).
  rewrite seq_nth by lia. reflexivity.
Qed.

Lemma contents_length (q : circular_queue T) :
  List.length (contents T T_default q) = Z.to_nat (size T q).
Proof. unfold contents. now rewrite length_map, length_seq. Qed.

Lemma slot_bound (q : circular_queue T) (i : Z) :
  wf T q -> 0 <= slot T q i < Z.of_nat (List.length (arr T q)).
Proof.
  intros (Hlen & Hcap & _). rewrite Hlen. unfold slot.
  apply Z.mod_pos_bound. lia.
Qed.

Lemma get_all_elements_loop_ret (q : circular_queue T) (n : nat) (i : nat) (acc : list T) :
  wf T q -> 0 < size T q ->
  front T q + size T q - 1 <= INT_MAX ->
  Z.of_nat i + Z.of_nat n = size T q ->
  get_all_elements_loop T n (Z.of_nat i) acc q =
  Ret (acc ++ map (fun j => nth (Z.to_nat (slot T q (Z.of_nat j))) (arr T q) T_default)
                  (seq i n)) q.
Proof.
  intros Hwf Hpos Hov. revert i acc.
  induction n as [|n IH]; intros i acc Hn; cbn.
  - unfold ret. now rewrite app_nil_r.
  - pose proof Hwf as (Hlen & Hcap & Hsz & Hidx).
    destruct Hidx as [Hf Hr]; [lia|].
    unfold_cxx. cbn.
    rewrite int_add_id by int_ok. rewrite int_rem_mod by lia. cbn.
    fold (slot T q (Z.of_nat i)).
    rewrite (array_get_nth _ _ T_default) by now apply slot_bound.
    rewrite int_add_id by int_ok.
    replace (Z.of_nat i + 1) with (Z.of_nat (Datatypes.S i)) by lia.
    rewrite IH by lia. now rewrite <- app_assoc.
Qed.

Lemma get_all_elements_ret (q : circular_queue T) :
  wf T q ->
  (0 < size T q -> front T q + size T q - 1 <= INT_MAX) ->
  get_all_elements T q = Ret (contents T T_default q) q.
Proof.
  intros Hwf Hov. unfold get_all_elements. unfold_cxx. cbn.
  destruct (Z.eq_dec (size T q) 0) as [E|E].
  - unfold contents. rewrite E. reflexivity.
  - destruct Hwf as (Hlen & Hcap & Hsz & Hidx).
    change 0 with (Z.of_nat 0) at 1.
    rewrite get_all_elements_loop_ret; try lia; [reflexivity|].
    repeat split; auto; lia.
Qed.

Lemma index_safe_front (q : circular_queue T) :
  wf T q -> index_safe T q ->
  0 < size T q -> front T q + size T q - 1 <= INT_MAX.
Proof.
  unfold index_safe. intros (Hlen & Hcap & Hsz & Hidx) Hs Hpos.
  destruct Hidx; lia.
Qed.

Lemma get_element_at_ret (q : circular_queue T) (index : Z) :
  wf T q -> index_safe T q -> 0 <= index < size T q ->
  get_element_at T index q =
  Ret (nth (Z.to_nat index) (contents T T_default q) T_default) q.
Proof.
  intros Hwf Hs Hi. pose proof (index_safe_front q Hwf Hs) as Hov.
  pose proof Hwf as (Hlen & Hcap & Hsz & Hidx).
  destruct Hidx as [Hf Hr]; [lia|].
  unfold get_element_at. unfold_cxx. cbn.
  destruct (Z.ltb_spec index 0); [lia|].
  destruct (Z.geb_spec index (size T q)); [lia|]. cbn.
  rewrite int_add_id by int_ok. rewrite int_rem_mod by lia. cbn.
  fold (slot T q index).
  rewrite (array_get_nth _ _ T_default) by now apply slot_bound.
  rewrite nth_contents by lia. now rewrite Z2Nat.id by lia.
Qed.

Lemma get_element_at_throw (q : circular_queue T) (index : Z) :
  index < 0 \/ size T q <= index ->
  get_element_at T index q = Throw (out_of_range "Index out of range") q.
Proof.
  intros H. unfold get_element_at. unfold_cxx. cbn.
  destruct (Z.ltb_spec index 0); [reflexivity|].
  destruct (Z.geb_spec index (size T q)); [reflexivity|lia].
Qed.

Lemma list_set_split (a : list T) (n : nat) (v : T) :
  (n < List.length a)%nat ->
  list_set a n v = firstn n a ++ v :: skipn (Datatypes.S n) a.
Proof.
  revert n; induction a as [|h t IH]; intros [|n] H; cbn in *; try lia; auto.
  f_equal. apply IH. lia.
Qed.

Lemma resize_loop_ret (q : circular_queue T) (n i : nat) (new_arr : list T) :
  wf T q -> 0 < size T q ->
  front T q + size T q - 1 <= INT_MAX ->
  Z.of_nat i + Z.of_nat n = size T q ->
  (i + n <= List.length new_arr)%nat ->
  resize_loop T n (Z.of_nat i) new_arr q =
  Ret (firstn i new_arr
       ++ map (fun j => nth (Z.to_nat (slot T q (Z.of_nat j))) (arr T q) T_default) (seq i n)
       ++ skipn (i + n) new_arr) q.
Proof.
  intros Hwf Hpos Hov. revert i new_arr.
  induction n as [|n IH]; intros i new_arr Hn Hlen'; cbn.
  - unfold ret. rewrite Nat.add_0_r. now rewrite firstn_skipn.
  - pose proof Hwf as (Hlen & Hcap & Hsz & Hidx).
    destruct Hidx as [Hf Hr]; [lia|].
    unfold_cxx. cbn.
    rewrite int_add_id by int_ok. rewrite int_rem_mod by lia. cbn.
    fold (slot T q (Z.of_nat i)).
    rewrite (array_get_nth _ _ T_default) by now apply slot_bound.
    rewrite array_set_in by lia.
    rewrite int_add_id by int_ok.
    replace (Z.of_nat i + 1) with (Z.of_nat (Datatypes.S i)) by lia.
    rewrite IH by (rewrite ?list_set_length; lia).
    rewrite Nat2Z.id.
    rewrite list_set_split by lia.
    set (x := nth _ (arr T q) T_default).
    assert (Hi : List.length (firstn i new_arr) = i) by (rewrite length_firstn; lia).
    f_equal.
    replace (firstn (Datatypes.S i) (firstn i new_arr ++ x :: skipn (Datatypes.S i) new_arr))
      with (firstn i new_arr ++ [x]).
    2: { rewrite firstn_app, Hi. replace (Datatypes.S i - i)%nat with 1%nat by lia.
         rewrite (firstn_all2 (n:=Datatypes.S i)) by lia. reflexivity. }
    rewrite <- app_assoc. cbn [app map seq]. do 3 f_equal.
    rewrite skipn_app, Hi.
    rewrite (skipn_all2 (firstn i new_arr)) by lia.
    replace (Datatypes.S i + n - i)%nat with (Datatypes.S n) by lia.
    cbn [app]. rewrite skipn_cons, skipn_skipn. f_equal. lia.
Qed.

Lemma resize_throw (q : circular_queue T) (k : Z) :
  k < size T q ->
  resize T T_default k q =
  Throw (invalid_argument "New capacity cannot be less than the current size") q.
Proof.
  intros H. unfold resize. unfold_cxx. cbn.
  destruct (Z.ltb_spec k (size T q)); [reflexivity|lia].
Qed.

Lemma resize_ret (q : circular_queue T) (k : Z) :
  wf T q ->
  (0 < size T q -> front T q + size T q - 1 <= INT_MAX) ->
  size T q <= k ->
  resize T T_default k q =
  Ret tt (mk T (contents T T_default q ++ repeat T_default (Z.to_nat (k - size T q)))
             0 (int_sub (size T q) 1) (size T q) k
             (call (logger T q)
                ("Queue resized to capacity: " ++ int_to_string k)%string)).
Proof.
  intros Hwf Hov Hk. pose proof Hwf as (Hlen & Hcap & Hsz & Hidx).
  unfold resize. unfold_cxx. cbn.
  destruct (Z.ltb_spec k (size T q)); [lia|].
  destruct (Z.ltb_spec k 0); [lia|]. cbn.
  destruct (Z.eq_dec (size T q) 0) as [E|E].
  - unfold contents. rewrite E. change (Z.to_nat 0) with 0%nat. cbn.
    now rewrite E, Z.sub_0_r.
  - change 0 with (Z.of_nat 0) at 1.
    rewrite resize_loop_ret; try lia; auto.
    2: { rewrite repeat_length. lia. }
    cbn. repeat f_equal.
    replace (Z.to_nat k) with (Z.to_nat (size T q) + Z.to_nat (k - size T q))%nat by lia.
    rewrite repeat_app, skipn_app, repeat_length.
    rewrite skipn_all2 by (rewrite repeat_length; lia).
    now rewrite Nat.sub_diag.
Qed.

(** *** The representation invariant is established and kept *)

Lemma construct_ret (n : Z) (cb : callback) :
  0 < n ->
  construct T T_default n cb = inr (mk T (repeat T_default (Z.to_nat n)) (-1) (-1) 0 n cb).
Proof.
  intros H. unfold construct. destruct (Z.leb_spec n 0); [lia|reflexivity].
Qed.

Lemma construct_throw (n : Z) (cb : callback) :
  n <= 0 ->
  construct T T_default n cb =
  inl (invalid_argument "Queue capacity must be greater than 0.").
Proof.
  intros H. unfold construct. destruct (Z.leb_spec n 0); [reflexivity|lia].
Qed.

Lemma construct_wf (n : Z) (cb : callback) (q : circular_queue T) :
  in_int n -> construct T T_default n cb = inr q -> wf T q.
Proof.
  intros Hn H. destruct (Z.le_gt_cases n 0).
  - rewrite construct_throw in H by lia. discriminate.
  - rewrite construct_ret in H by lia. injection H as <-.
    unfold wf; cbn. rewrite repeat_length. int_ok.
Qed.

Lemma enqueue_wf (q q' : circular_queue T) (v : T) :
  wf T q -> enqueue T to_string v q = Ret tt q' -> wf T q'.
Proof.
  intros Hwf H. rewrite enqueue_ret in H by assumption.
  injection H as <-. destruct Hwf as (Hlen & Hcap & Hsz & Hidx).
  unfold wf; cbn. rewrite list_set_length.
  split; [assumption|]. split; [assumption|].
  destruct (Z.eqb_spec (size T q) (capacity T q)) as [E|E].
  - destruct Hidx as [Hf Hr]; [lia|].
    destruct (Z.eqb_spec (size T q) 0); [lia|].
    split; [lia|]. intros _. split; [apply Z.mod_pos_bound; lia|].
    rewrite Hr, E.
    rewrite Z.add_mod_idemp_l by lia.
    replace ((front T q + 1) mod capacity T q + capacity T q - 1)
      with ((front T q + 1) mod capacity T q + (capacity T q - 1)) by lia.
    rewrite Z.add_mod_idemp_l by lia. f_equal. lia.
  - destruct (Z.eqb_spec (size T q) 0) as [E0|E0].
    + rewrite E0. split; [lia|]. intros _. split; [lia|].
      now rewrite Z.mod_small by lia.
    + destruct Hidx as [Hf Hr]; [lia|].
      split; [lia|]. intros _. split; [lia|].
      rewrite Hr. rewrite Z.add_mod_idemp_l by lia. f_equal. lia.
Qed.

Lemma dequeue_wf (q q' : circular_queue T) (x : T) :
  wf T q -> dequeue T to_string q = Ret x q' -> wf T q'.
Proof.
  intros Hwf H. destruct (Z.eq_dec (size T q) 0) as [E|E].
  - rewrite dequeue_empty in H by assumption. discriminate.
  - pose proof Hwf as (Hlen & Hcap & Hsz & Hidx).
    rewrite dequeue_ret in H by (auto; lia).
    injection H as _ <-. destruct Hidx as [Hf Hr]; [lia|].
    unfold wf; cbn.
    split; [assumption|]. split; [assumption|]. split; [lia|].
    intros Hpos. destruct (Z.eqb_spec (size T q) 1); [lia|].
    split; [apply Z.mod_pos_bound; lia|].
    rewrite Hr.
    replace ((front T q + 1) mod capacity T q + (size T q - 1) - 1)
      with ((front T q + 1) mod capacity T q + (size T q - 2)) by lia.
    rewrite Z.add_mod_idemp_l by lia. f_equal. lia.
Qed.

Lemma clear_wf (q q' : circular_queue T) :
  wf T q -> clear T q = Ret tt q' -> wf T q'.
Proof.
  intros (Hlen & Hcap & Hsz & Hidx) H. rewrite clear_ret in H.
  injection H as <-. unfold wf; cbn. repeat split; auto; lia.
Qed.

Lemma resize_wf (q q' : circular_queue T) (k : Z) :
  wf T q -> index_safe T q -> 1 <= k <= INT_MAX ->
  resize T T_default k q = Ret tt q' -> wf T q'.
Proof.
  intros Hwf Hs Hk H. pose proof Hwf as (Hlen & Hcap & Hsz & Hidx).
  destruct (Z.lt_ge_cases k (size T q)).
  - rewrite resize_throw in H by assumption. discriminate.
  - rewrite resize_ret in H by (auto using index_safe_front; lia).
    injection H as <-. unfold wf; cbn.
    rewrite length_app, contents_length, repeat_length.
    split; [lia|]. split; [assumption|]. split; [lia|].
    intros Hpos. split; [lia|].
    rewrite int_sub_id by int_ok.
    rewrite Z.mod_small by lia. lia.
Qed.

(** *** How each method changes the logical sequence *)

Lemma nth_contents_Z (q : circular_queue T) (i : Z) :
  0 <= i < size T q ->
  nth (Z.to_nat i) (contents T T_default q) T_default =
  nth (Z.to_nat (slot T q i)) (arr T q) T_default.
Proof.
  intros H. rewrite nth_contents by lia. now rewrite Z2Nat.id by lia.
Qed.

Lemma contents_eq (q : circular_queue T) (l : list T) :
  List.length l = Z.to_nat (size T q) ->
  (forall i, 0 <= i < size T q ->
     nth (Z.to_nat i) l T_default = nth (Z.to_nat (slot T q i)) (arr T q) T_default) ->
  contents T T_default q = l.
Proof.
  intros Hlen H. apply (nth_ext _ _ T_default T_default).
  - now rewrite contents_length.
  - intros n Hn. rewrite contents_length in Hn.
    rewrite nth_contents by assumption.
    rewrite <- H by lia. now rewrite Nat2Z.id.
Qed.

Lemma contents_empty (q : circular_queue T) :
  size T q = 0 -> contents T T_default q = [].
Proof. intros E. unfold contents. now rewrite E. Qed.

Lemma contents_enqueue_not_full (q q' : circular_queue T) (v : T) :
  wf T q -> size T q < capacity T q ->
  enqueue T to_string v q = Ret tt q' ->
  contents T T_default q' = contents T T_default q ++ [v].
Proof.
  intros Hwf Hnf H. rewrite enqueue_ret in H by assumption.
  injection H as <-. destruct Hwf as (Hlen & Hcap & Hsz & Hidx).
  destruct (Z.eqb_spec (size T q) (capacity T q)) as [E|_]; [lia|].
  apply contents_eq; cbn.
  - rewrite length_app, contents_length. cbn. lia.
  - intros i Hi. unfold slot; cbn.
    destruct (Z.eqb_spec (size T q) 0) as [E0|E0].
    + assert (i = 0) by lia. subst i.
      rewrite (contents_empty q E0). cbn [app].
      rewrite Z.mod_small by lia.
      change (Z.to_nat 0) with 0%nat.
      rewrite nth_list_set_same by lia. reflexivity.
    + destruct Hidx as [Hf Hr]; [lia|].
      assert (Hr' : (rear T q + 1) mod capacity T q
                    = (front T q + size T q) mod capacity T q).
      { rewrite Hr, Z.add_mod_idemp_l by lia. f_equal. lia. }
      rewrite Hr'.
      destruct (Z.eq_dec i (size T q)) as [->|Ni].
      * rewrite app_nth2 by (rewrite contents_length; lia).
        rewrite contents_length, Nat.sub_diag.
        rewrite nth_list_set_same; [reflexivity|].
        pose proof (Z.mod_pos_bound (front T q + size T q) (capacity T q)). lia.
      * rewrite app_nth1 by (rewrite contents_length; lia).
        rewrite nth_contents_Z by lia.
        rewrite nth_list_set_other; [reflexivity|].
        intros Eq. apply Z2Nat.inj in Eq;
          try (apply Z.mod_pos_bound; lia).
        symmetry in Eq. revert Eq. apply mod_offset_neq; lia.
Qed.

Lemma contents_enqueue_full (q q' : circular_queue T) (v : T) :
  wf T q -> size T q = capacity T q ->
  enqueue T to_string v q = Ret tt q' ->
  contents T T_default q' = tl (contents T T_default q) ++ [v].
Proof.
  intros Hwf Hfull H. rewrite enqueue_ret in H by assumption.
  injection H as <-. destruct Hwf as (Hlen & Hcap & Hsz & Hidx).
  destruct (Z.eqb_spec (size T q) (capacity T q)) as [_|E]; [|lia].
  destruct (Z.eqb_spec (size T q) 0) as [E0|_]; [lia|].
  destruct Hidx as [Hf Hr]; [lia|].
  assert (Hr' : (rear T q + 1) mod capacity T q = front T q).
  { rewrite Hr, Z.add_mod_idemp_l by lia.
    replace (front T q + size T q - 1 + 1) with (front T q + 1 * capacity T q) by lia.
    rewrite Z.mod_add by lia. apply Z.mod_small; lia. }
  assert (Htl : List.length (tl (contents T T_default q)) = Z.to_nat (size T q - 1)).
  { pose proof (contents_length q).
    destruct (contents T T_default q); cbn in *; lia. }
  apply contents_eq; cbn.
  - rewrite length_app, Htl. cbn. lia.
  - intros i Hi. unfold slot; cbn. rewrite Hr'.
    rewrite Z.add_mod_idemp_l by lia.
    destruct (Z.eq_dec i (size T q - 1)) as [->|Ni].
    + rewrite app_nth2 by lia. rewrite Htl, Nat.sub_diag.
      replace (front T q + 1 + (size T q - 1)) with (front T q + 1 * capacity T q) by lia.
      rewrite Z.mod_add by lia. rewrite Z.mod_small by lia.
      rewrite nth_list_set_same by lia. reflexivity.
    + rewrite app_nth1 by lia.
      rewrite nth_list_set_other.
      2:{ intros Eq. apply Z2Nat.inj in Eq; try lia;
            try (apply Z.mod_pos_bound; lia).
          rewrite <- (Z.mod_small (front T q) (capacity T q)) in Eq at 1 by lia.
          replace (front T q) with (front T q + 0) in Eq at 1 by lia.
          replace (front T q + 1 + i) with (front T q + (1 + i)) in Eq by lia.
          revert Eq. apply mod_offset_neq; lia. }
      replace (front T q + 1 + i) with (front T q + (i + 1)) by lia.
      fold (slot T q (i + 1)).
      rewrite <- nth_contents_Z by lia.
      replace (Z.to_nat (i + 1)) with (Datatypes.S (Z.to_nat i)) by lia.
      destruct (contents T T_default q); [now destruct (Z.to_nat i)|reflexivity].
Qed.

Lemma contents_dequeue (q q' : circular_queue T) (x : T) :
  wf T q -> dequeue T to_string q = Ret x q' ->
  contents T T_default q = x :: contents T T_default q'.
Proof.
  intros Hwf H. destruct (Z.eq_dec (size T q) 0) as [E|E].
  { rewrite dequeue_empty in H by assumption. discriminate. }
  pose proof Hwf as (Hlen & Hcap & Hsz & Hidx).
  rewrite dequeue_ret in H by (auto; lia).
  injection H as <- <-. destruct Hidx as [Hf Hr]; [lia|].
  apply contents_eq.
  - cbn. rewrite contents_length. cbn. lia.
  - intros i Hi. destruct (Z.eq_dec i 0) as [->|Ni].
    + change (Z.to_nat 0) with 0%nat. cbn [nth]. unfold slot.
      now rewrite Z.add_0_r, Z.mod_small by lia.
    + replace (Z.to_nat i) with (Datatypes.S (Z.to_nat (i - 1))) by lia.
      cbn [nth]. rewrite nth_contents_Z by (cbn; lia).
      unfold slot; cbn.
      destruct (Z.eqb_spec (size T q) 1); [lia|].
      rewrite Z.add_mod_idemp_l by lia. do 3 f_equal. lia.
Qed.


(** *** What a call can do to [size], [capacity] and the callback, in any state *)

Lemma int_rem_cases (a b : Z) (q : circular_queue T) :
  int_rem a b q = Undefined \/ int_rem a b q = Ret (Z.rem a b) q.
Proof.
  unfold int_rem. destruct (_ || _); [left|right]; reflexivity.
Qed.

Lemma enqueue_effect (q : circular_queue T) (v : T) :
  match enqueue T to_string v q with
  | Ret _ q' =>
      capacity T q' = capacity T q /\
      size T q' = int_add (if size T q =? capacity T q
                           then int_sub (size T q) 1 else size T q) 1 /\
      logger T q' = call (logger T q) ("Enqueued: " ++ to_string v)%string
  | Throw _ _ => False
  | Undefined => True
  end.
Proof.
  destruct q as [a f r s c lg].
  unfold enqueue, is_full, is_empty. unfold_cxx. cbn.
  destruct (s =? c); cbn.
  - destruct (int_rem_cases (int_add f 1) c (mk T a f r s c lg)) as [E|E];
      rewrite E; cbn; [exact I|].
    destruct (int_sub s 1 =? 0); cbn.
    + destruct (array_set a 0 v); cbn; auto.
    + match goal with |- context [int_rem ?x ?y ?z] =>
        destruct (int_rem_cases x y z) as [E'|E']; rewrite E'; cbn; [exact I|] end.
      destruct (array_set _ _ _); cbn; auto.
  - destruct (s =? 0); cbn.
    + destruct (array_set a 0 v); cbn; auto.
    + match goal with |- context [int_rem ?x ?y ?z] =>
        destruct (int_rem_cases x y z) as [E'|E']; rewrite E'; cbn; [exact I|] end.
      destruct (array_set _ _ _); cbn; auto.
Qed.

Lemma dequeue_effect (q : circular_queue T) :
  match dequeue T to_string q with
  | Ret x q' =>
      size T q <> 0 /\
      capacity T q' = capacity T q /\
      size T q' = int_sub (size T q) 1 /\
      logger T q' = call (logger T q) ("Dequeued: " ++ to_string x)%string
  | Throw e q' => q' = q /\ size T q = 0
  | Undefined => True
  end.
Proof.
  destruct q as [a f r s c lg].
  unfold dequeue, is_empty. unfold_cxx. cbn.
  destruct (Z.eqb_spec s 0); cbn; [auto|].
  destruct (array_get a f); cbn; [|exact I].
  destruct (f =? r); cbn; [auto|].
  match goal with |- context [int_rem ?x ?y ?z] =>
    destruct (int_rem_cases x y z) as [E'|E']; rewrite E'; cbn; auto end.
Qed.

Lemma peek_effect (q : circular_queue T) :
  match peek T q with
  | Ret _ q' => q' = q
  | Throw _ q' => q' = q
  | Undefined => True
  end.
Proof.
  unfold peek, is_empty. unfold_cxx. cbn.
  destruct (size T q =? 0); cbn; [reflexivity|].
  destruct (array_get _ _); cbn; auto.
Qed.

Lemma get_element_at_effect (q : circular_queue T) (index : Z) :
  match get_element_at T index q with
  | Ret _ q' => q' = q
  | Throw _ q' => q' = q
  | Undefined => True
  end.
Proof.
  unfold get_element_at. unfold_cxx. cbn.
  destruct (_ || _); cbn; [reflexivity|].
  match goal with |- context [int_rem ?x ?y ?z] =>
    destruct (int_rem_cases x y z) as [E'|E']; rewrite E'; cbn; auto end.
  destruct (array_get _ _); cbn; auto.
Qed.

Lemma get_all_elements_loop_effect (q : circular_queue T) (n : nat) (i : Z) (acc : list T) :
  match get_all_elements_loop T n i acc q with
  | Ret _ q' => q' = q
  | Throw _ _ => False
  | Undefined => True
  end.
Proof.
  revert i acc. induction n as [|n IH]; intros i acc; cbn; [reflexivity|].
  unfold_cxx. cbn.
  match goal with |- context [int_rem ?x ?y ?z] =>
    destruct (int_rem_cases x y z) as [E'|E']; rewrite E'; cbn; auto end.
  destruct (array_get _ _); cbn; auto. apply IH.
Qed.

Lemma get_all_elements_effect (q : circular_queue T) :
  match get_all_elements T q with
  | Ret _ q' => q' = q
  | Throw _ _ => False
  | Undefined => True
  end.
Proof.
  unfold get_all_elements. unfold_cxx. cbn. apply get_all_elements_loop_effect.
Qed.

Lemma resize_loop_effect (q : circular_queue T) (n : nat) (i : Z) (new_arr : list T) :
  match resize_loop T n i new_arr q with
  | Ret _ q' => q' = q
  | Throw _ _ => False
  | Undefined => True
  end.
Proof.
  revert i new_arr. induction n as [|n IH]; intros i new_arr; cbn; [reflexivity|].
  unfold_cxx. cbn.
  match goal with |- context [int_rem ?x ?y ?z] =>
    destruct (int_rem_cases x y z) as [E'|E']; rewrite E'; cbn; auto end.
  destruct (array_get _ _); cbn; auto.
  destruct (array_set _ _ _); cbn; auto. apply IH.
Qed.

Lemma resize_effect (q : circular_queue T) (k : Z) :
  match resize T T_default k q with
  | Ret _ q' =>
      size T q <= k /\
      capacity T q' = k /\
      size T q' = size T q /\
      logger T q' = call (logger T q)
                      ("Queue resized to capacity: " ++ int_to_string k)%string
  | Throw _ q' => q' = q /\ (k < size T q \/ k < 0)
  | Undefined => True
  end.
Proof.
  unfold resize. unfold_cxx. cbn.
  destruct (Z.ltb_spec k (size T q)); cbn; [auto|].
  destruct (Z.ltb_spec k 0); cbn; [auto|].
  pose proof (resize_loop_effect q (Z.to_nat (size T q)) 0
                (repeat T_default (Z.to_nat k))) as H1.
  destruct (resize_loop _ _ _ _ _); cbn; [|contradiction|exact I].
  subst. cbn. auto.
Qed.

(** *** Filling a queue that has not wrapped around *)

Ltac split_all := repeat match goal with |- _ /\ _ => split end.

Lemma enqueue_all_ret (q : circular_queue T) (vs : list T) :
  wf T q -> (size T q = 0 \/ front T q = 0) ->
  size T q + Z.of_nat (List.length vs) <= capacity T q ->
  exists q',
    enqueue_all T to_string vs q = Ret tt q' /\
    wf T q' /\ (size T q' = 0 \/ front T q' = 0) /\
    capacity T q' = capacity T q /\
    size T q' = size T q + Z.of_nat (List.length vs) /\
    contents T T_default q' = contents T T_default q ++ vs.
Proof.
  revert q. induction vs as [|v vs IH]; intros q Hwf Hfront Hroom; cbn in *.
  - exists q. unfold ret. rewrite app_nil_r, Z.add_0_r. split_all; auto.
  - unfold bind.
    pose proof (enqueue_ret q v Hwf) as Hret.
    pose proof (enqueue_wf q _ v Hwf Hret) as Hwf1.
    pose proof (contents_enqueue_not_full q _ v Hwf ltac:(lia) Hret) as Hc1.
    rewrite Hret.
    match type of Hret with _ = Ret tt ?s => set (q1 := s) in * end.
    assert (Hs1 : size T q1 = size T q + 1).
    { subst q1; cbn. destruct (Z.eqb_spec (size T q) (capacity T q)); lia. }
    assert (Hf1 : front T q1 = 0).
    { subst q1; cbn. destruct (Z.eqb_spec (size T q) (capacity T q)); [lia|].
      destruct (Z.eqb_spec (size T q) 0); lia. }
    destruct (IH q1 Hwf1 (or_intror Hf1)) as (q' & Hrun & Hwf' & Hf' & Hcap' & Hs' & Hc').
    { rewrite Hs1. subst q1; cbn. lia. }
    exists q'. rewrite Hrun. split_all; auto; try lia.
    rewrite Hc', Hc1, <- app_assoc. reflexivity.
Qed.

Lemma fill_fresh (n : Z) (cb : callback) (q0 : circular_queue T) (vs : list T) :
  in_int n -> construct T T_default n cb = inr q0 ->
  Z.of_nat (List.length vs) <= n ->
  exists q,
    enqueue_all T to_string vs q0 = Ret tt q /\
    wf T q /\ capacity T q = n /\
    size T q = Z.of_nat (List.length vs) /\
    get_all_elements T q = Ret vs q.
Proof.
  intros Hn Hc Hlen. pose proof (construct_wf n cb q0 Hn Hc) as Hwf.
  destruct (Z.le_gt_cases n 0) as [Hle|Hgt].
  { rewrite construct_throw in Hc by assumption. discriminate. }
  rewrite construct_ret in Hc by assumption. injection Hc as <-.
  destruct (enqueue_all_ret _ vs Hwf) as (q & Hrun & Hwf' & Hf & Hcap & Hs & Hcont);
    [cbn; auto | cbn; lia |].
  cbn in Hcap, Hs, Hcont.
  exists q. rewrite Hrun. split_all; auto.
  rewrite get_all_elements_ret; auto.
  - rewrite Hcont. reflexivity.
  - intros Hpos. destruct Hwf' as (_ & Hc' & Hsz' & _).
    destruct Hf; lia.
Qed.

(** *** Construction *)

(** C6: construction throws [invalid_argument] for every requested capacity
    [n <= 0]; every queue that is constructed has a capacity of at least 1,
    namely [n], holds no element and reports itself empty; and every positive
    [n] does construct. *)
Theorem construct_checks_capacity (n : Z) (cb : callback) :
  (n <= 0 -> exists what, construct T T_default n cb = inl (invalid_argument what)) /\
  (forall q, construct T T_default n cb = inr q ->
     1 <= capacity T q /\ capacity T q = n /\ size T q = 0 /\
     is_empty T q = Ret true q /\ get_size T q = Ret 0 q /\
     contents T T_default q = []) /\
  (0 < n -> exists q, construct T T_default n cb = inr q).
Proof.
  split_all.
  - intros H. rewrite construct_throw by assumption. eauto.
  - intros q H. destruct (Z.le_gt_cases n 0).
    + rewrite construct_throw in H by assumption. discriminate.
    + rewrite construct_ret in H by assumption. injection H as <-.
      cbn. split_all; auto; lia.
  - intros H. rewrite construct_ret by assumption. eauto.
Qed.

(** *** dequeue and peek *)

(** C2: on a queue that reports itself empty, [dequeue] leaves by
    [underflow_error] with the queue untouched, and so returns no value at
    all, the default-constructed one included. *)
Theorem dequeue_empty_throws (q : circular_queue T) :
  is_empty T q = Ret true q ->
  dequeue T to_string q = Throw (underflow_error "Queue is empty") q /\
  (forall x q', dequeue T to_string q <> Ret x q').
Proof.
  intros H. unfold is_empty in H. unfold_cxx. cbn in H.
  injection H as H. apply Z.eqb_eq in H.
  rewrite dequeue_empty by assumption. split; [reflexivity|discriminate].
Qed.

(** C7: on a non-empty queue [peek] returns the element stored in slot
    [front] and leaves every field as it was; a [dequeue] right after it
    returns the same element and lowers [size] by one.  On an empty queue
    [peek] leaves by [underflow_error]. *)
Theorem peek_then_dequeue (q : circular_queue T) :
  wf T q ->
  (0 < size T q ->
   exists x q',
     array_get (arr T q) (front T q) = Some x /\
     peek T q = Ret x q /\
     dequeue T to_string q = Ret x q' /\
     (x1 <- peek T ;; x2 <- dequeue T to_string ;; ret (x1, x2)) q = Ret (x, x) q' /\
     size T q' = size T q - 1 /\
     get_size T q' = Ret (size T q - 1) q') /\
  (size T q = 0 -> peek T q = Throw (underflow_error "Queue is empty") q).
Proof.
  intros Hwf. split.
  - intros Hpos. pose proof Hwf as (Hlen & Hcap & Hsz & Hidx).
    destruct Hidx as [Hf Hr]; [assumption|].
    eexists. eexists. split_all.
    + apply (array_get_nth _ _ T_default). lia.
    + now apply peek_ret.
    + now apply dequeue_ret.
    + unfold bind. rewrite peek_ret by assumption.
      rewrite dequeue_ret by assumption. reflexivity.
    + reflexivity.
    + reflexivity.
  - apply peek_empty.
Qed.

(** *** enqueue *)

(** C1: on a well-formed queue [enqueue] returns normally.  When the queue is
    full, [front] moves one slot on (modulo the capacity), the new value takes
    the slot the oldest element had, [size] is the capacity again, and the
    logical sequence is what it was before without its first element and with
    the new value at the end; so is what [get_all_elements] returns, for
    capacities whose index sums fit an [int]. *)
Theorem enqueue_overwrites_oldest (q : circular_queue T) (v : T) :
  wf T q ->
  exists q',
    enqueue T to_string v q = Ret tt q' /\
    wf T q' /\
    capacity T q' = capacity T q /\
    (size T q = capacity T q ->
     front T q' = (front T q + 1) mod capacity T q /\
     arr T q' = list_set (arr T q) (Z.to_nat (front T q)) v /\
     size T q' = capacity T q /\
     contents T T_default q' = tl (contents T T_default q) ++ [v] /\
     (index_safe T q ->
      forall l, get_all_elements T q = Ret l q ->
                get_all_elements T q' = Ret (tl l ++ [v]) q')).
Proof.
  intros Hwf. pose proof (enqueue_ret q v Hwf) as Hret.
  pose proof (enqueue_wf q _ v Hwf Hret) as Hwf'.
  match type of Hret with _ = Ret tt ?s => remember s as q' eqn:Hq' end.
  assert (Hcap' : capacity T q' = capacity T q) by (rewrite Hq'; reflexivity).
  exists q'. split_all; auto.
  intros Hfull. pose proof Hwf as (Hlen & Hcap & Hsz & Hidx).
  destruct Hidx as [Hf Hr]; [lia|].
  assert (Hr' : (rear T q + 1) mod capacity T q = front T q).
  { rewrite Hr, Z.add_mod_idemp_l by lia.
    replace (front T q + size T q - 1 + 1) with (front T q + 1 * capacity T q) by lia.
    rewrite Z.mod_add by lia. apply Z.mod_small; lia. }
  split_all.
  - rewrite Hq'. cbn [front].
    destruct (Z.eqb_spec (size T q) (capacity T q)); [reflexivity|lia].
  - rewrite Hq'. cbn [arr].
    destruct (Z.eqb_spec (size T q) 0); [lia|]. now rewrite Hr'.
  - rewrite Hq'. cbn [size].
    destruct (Z.eqb_spec (size T q) (capacity T q)); lia.
  - exact (contents_enqueue_full q q' v Hwf Hfull Hret).
  - intros Hsafe l Hl.
    rewrite get_all_elements_ret in Hl by auto using index_safe_front.
    injection Hl as <-.
    rewrite get_all_elements_ret; auto.
    + rewrite (contents_enqueue_full q q' v Hwf Hfull Hret). reflexivity.
    + apply index_safe_front; auto. unfold index_safe. now rewrite Hcap'.
Qed.

(** C5: after construction with capacity [n], enqueueing any values [vs],
    no more than [n] of them, returns normally; [get_all_elements] then
    returns exactly [vs], oldest first, and [get_size] their number.  The
    returned sequence is a value of its own: the call leaves the queue as it
    was, and nothing done to the result reaches the queue. *)
Theorem snapshot_after_enqueues
  (n : Z) (cb : callback) (q0 : circular_queue T) (vs : list T) :
  in_int n -> construct T T_default n cb = inr q0 ->
  Z.of_nat (List.length vs) <= n ->
  exists q,
    enqueue_all T to_string vs q0 = Ret tt q /\
    get_all_elements T q = Ret vs q /\
    get_size T q = Ret (Z.of_nat (List.length vs)) q /\
    (forall mutate : list T -> list T,
       (l <- get_all_elements T ;; let _ := mutate l in get_all_elements T) q = Ret vs q).
Proof.
  intros Hn Hc Hlen.
  destruct (fill_fresh n cb q0 vs Hn Hc Hlen) as (q & Hrun & Hwf & Hcap & Hs & Hall).
  exists q. split_all; auto.
  - unfold get_size. unfold_cxx. cbn. now rewrite Hs.
  - intros mutate. unfold bind. rewrite Hall. exact Hall.
Qed.

(** *** Calls in general *)

Lemma invoke_log (q : circular_queue T) (m : method T) :
  match invoke T T_default to_string m q with
  | Ret r q' =>
      logger T q' = fold_left call (event_of T to_string m r) (logger T q) /\
      List.length (event_of T to_string m r) = (if mutating T m then 1 else 0)%nat /\
      (mutating T m = false -> q' = q)
  | Throw _ q' => q' = q
  | Undefined => True
  end.
Proof.
  destruct m as [v| | |index| | |new_capacity| | | |]; cbn [invoke]; unfold bind, ret.
  - pose proof (enqueue_effect q v) as H.
    destruct (enqueue _ _ _ _); cbn; auto; [|contradiction].
    destruct H as (_ & _ & ->). split_all; auto; discriminate.
  - pose proof (dequeue_effect q) as H.
    destruct (dequeue _ _ _); cbn; auto.
    + destruct H as (_ & _ & _ & ->). split_all; auto; discriminate.
    + tauto.
  - pose proof (peek_effect q) as H.
    destruct (peek _ _); cbn; auto. subst. auto.
  - pose proof (get_element_at_effect q index) as H.
    destruct (get_element_at _ _ _); cbn; auto. subst. auto.
  - pose proof (get_all_elements_effect q) as H.
    destruct (get_all_elements _ _); cbn; auto; [|contradiction]. subst. auto.
  - rewrite clear_ret. cbn. split_all; auto; discriminate.
  - pose proof (resize_effect q new_capacity) as H.
    destruct (resize _ _ _ _); cbn; auto.
    + destruct H as (_ & _ & _ & ->). split_all; auto; discriminate.
    + tauto.
  - cbn. auto.
  - cbn. auto.
  - cbn. auto.
  - cbn. auto.
Qed.

(** On a well-formed queue whose index sums fit an [int], no call runs into
    undefined behaviour. *)
Lemma invoke_defined (q : circular_queue T) (m : method T) :
  wf T q -> index_safe T q ->
  invoke T T_default to_string m q <> Undefined.
Proof.
  intros Hwf Hs. pose proof Hwf as (Hlen & Hcap & Hsz & Hidx).
  destruct m as [v| | |index| | |new_capacity| | | |]; cbn [invoke]; unfold bind, ret.
  - rewrite enqueue_ret by assumption. discriminate.
  - destruct (Z.eq_dec (size T q) 0).
    + rewrite dequeue_empty by assumption. discriminate.
    + rewrite dequeue_ret by (auto; lia). discriminate.
  - destruct (Z.eq_dec (size T q) 0).
    + rewrite peek_empty by assumption. discriminate.
    + rewrite peek_ret by (auto; lia). discriminate.
  - destruct (Z.lt_ge_cases index 0).
    + rewrite get_element_at_throw by lia. discriminate.
    + destruct (Z.lt_ge_cases index (size T q)).
      * rewrite get_element_at_ret by (auto; lia). discriminate.
      * rewrite get_element_at_throw by lia. discriminate.
  - rewrite get_all_elements_ret by auto using index_safe_front. discriminate.
  - rewrite clear_ret. discriminate.
  - destruct (Z.lt_ge_cases new_capacity (size T q)).
    + rewrite resize_throw by assumption. discriminate.
    + rewrite resize_ret by auto using index_safe_front. discriminate.
  - discriminate.
  - discriminate.
  - discriminate.
  - discriminate.
Qed.

(** The count stays within the capacity, and the capacity within [int],
    across any call that leaves a state. *)
Lemma invoke_count (q q' : circular_queue T) (m : method T) :
  0 <= size T q <= capacity T q -> capacity T q <= INT_MAX ->
  int_args T m ->
  state_after T (invoke T T_default to_string m q) = Some q' ->
  0 <= size T q' <= capacity T q' /\ capacity T q' <= INT_MAX.
Proof.
  intros Hsz Hcap Hargs. 
  destruct m as [v| | |index| | |new_capacity| | | |]; cbn [invoke]; unfold bind, ret.
  - pose proof (enqueue_effect q v) as H.
    destruct (enqueue _ _ _ _); cbn; try discriminate; [|contradiction].
    intros [= <-]. destruct H as (-> & -> & _).
    destruct (Z.eqb_spec (size T q) (capacity T q)).
    + rewrite int_sub_id by int_ok. rewrite int_add_id by int_ok. lia.
    + rewrite int_add_id by int_ok. lia.
  - pose proof (dequeue_effect q) as H.
    destruct (dequeue _ _ _); cbn; try discriminate; intros [= <-].
    + destruct H as (Hne & -> & -> & _). rewrite int_sub_id by int_ok. lia.
    + destruct H as (-> & _). auto.
  - pose proof (peek_effect q) as H.
    destruct (peek _ _); cbn; try discriminate; intros [= <-]; subst; auto.
  - pose proof (get_element_at_effect q index) as H.
    destruct (get_element_at _ _ _); cbn; try discriminate; intros [= <-]; subst; auto.
  - pose proof (get_all_elements_effect q) as H.
    destruct (get_all_elements _ _); cbn; try discriminate; intros [= <-];
      subst; auto; contradiction.
  - rewrite clear_ret. cbn. intros [= <-]. cbn. lia.
  - pose proof (resize_effect q new_capacity) as H. cbn in Hargs.
    destruct (resize _ _ _ _); cbn; try discriminate; intros [= <-].
    + destruct H as (Hk & -> & -> & _). int_ok.
    + destruct H as (-> & _). auto.
  - cbn. intros [= <-]. auto.
  - cbn. intros [= <-]. auto.
  - cbn. intros [= <-]. auto.
  - cbn. intros [= <-]. auto.
Qed.

Lemma reachable_count (q : circular_queue T) :
  reachable T T_default to_string q ->
  0 <= size T q <= capacity T q /\ capacity T q <= INT_MAX.
Proof.
  induction 1 as [n cb q Hn Hc | m q q' Hq IH Hargs Hstep].
  - pose proof (construct_wf n cb q Hn Hc) as (_ & Hcap & Hsz & _). lia.
  - destruct IH as [Hsz Hcap]. eapply invoke_count; eauto.
Qed.

(** Well-formedness survives every call except a [resize] to capacity 0. *)
Lemma invoke_wf (q q' : circular_queue T) (m : method T) :
  wf T q -> index_safe T q -> int_args T m ->
  m <> Resize T 0 ->
  state_after T (invoke T T_default to_string m q) = Some q' ->
  wf T q'.
Proof.
  intros Hwf Hs Hargs Hm.
  destruct m as [v| | |index| | |new_capacity| | | |]; cbn [invoke]; unfold bind, ret.
  - rewrite enqueue_ret by assumption. cbn. intros [= <-].
    eapply enqueue_wf; eauto using enqueue_ret.
  - destruct (dequeue T to_string q) as [x s|e s|] eqn:E; cbn; try discriminate;
      intros [= <-].
    + eapply dequeue_wf; eauto.
    + pose proof (dequeue_effect q) as H. rewrite E in H. destruct H as (-> & _).
      assumption.
  - pose proof (peek_effect q) as H.
    destruct (peek _ _); cbn; try discriminate; intros [= <-]; subst; auto.
  - pose proof (get_element_at_effect q index) as H.
    destruct (get_element_at _ _ _); cbn; try discriminate; intros [= <-]; subst; auto.
  - pose proof (get_all_elements_effect q) as H.
    destruct (get_all_elements _ _); cbn; try discriminate; intros [= <-];
      subst; auto; contradiction.
  - rewrite clear_ret. cbn. intros [= <-]. eapply clear_wf; eauto using clear_ret.
  - destruct (resize T T_default new_capacity q) as [x s|e s|] eqn:E; cbn;
      try discriminate; intros [= <-].
    + pose proof (resize_effect q new_capacity) as H. rewrite E in H.
      destruct H as (Hk & _). destruct x.
      eapply resize_wf; eauto.
      cbn in Hargs. destruct Hwf as (_ & _ & Hsz & _).
      assert (new_capacity <> 0) by congruence. int_ok.
    + pose proof (resize_effect q new_capacity) as H. rewrite E in H.
      destruct H as (-> & _). assumption.
  - cbn. intros [= <-]. auto.
  - cbn. intros [= <-]. auto.
  - cbn. intros [= <-]. auto.
  - cbn. intros [= <-]. auto.
Qed.

(** *** Predicates, notifications and the count invariant *)

(** C3: in every state, [is_full] answers whether [size] equals [capacity]
    and [is_empty] whether [size] is 0, and both leave the queue, callback
    included, exactly as it was.  A queue constructed with capacity [n] takes
    any [vs] of at most [n] values, holds them all, and reports itself full
    exactly when there are [n] of them. *)
Theorem full_and_empty_predicates
  (q : circular_queue T) (n : Z) (cb : callback) (q0 : circular_queue T) (vs : list T) :
  (exists b, is_full T q = Ret b q /\ (b = true <-> size T q = capacity T q)) /\
  (exists b, is_empty T q = Ret b q /\ (b = true <-> size T q = 0)) /\
  (in_int n -> construct T T_default n cb = inr q0 ->
   Z.of_nat (List.length vs) <= n ->
   exists q1 b,
     enqueue_all T to_string vs q0 = Ret tt q1 /\
     get_all_elements T q1 = Ret vs q1 /\
     is_full T q1 = Ret b q1 /\
     (b = true <-> Z.of_nat (List.length vs) = n)).
Proof.
  split_all.
  - exists (size T q =? capacity T q). split; [reflexivity|apply Z.eqb_eq].
  - exists (size T q =? 0). split; [reflexivity|apply Z.eqb_eq].
  - intros Hn Hc Hlen.
    destruct (fill_fresh n cb q0 vs Hn Hc Hlen) as (q1 & Hrun & Hwf & Hcap & Hs & Hall).
    exists q1, (size T q1 =? capacity T q1). split_all; auto.
    rewrite Z.eqb_eq. lia.
Qed.

(** C8, amended: with a callback set, on a well-formed queue every call is
    defined; a returning [enqueue] (into a full queue or not), [dequeue], [clear] or
    [resize] hands the callback exactly one message, the one describing the
    call; a returning [peek], [get_element_at], [get_all_elements],
    [is_full], [is_empty], [get_size] or [get_capacity] hands it none and
    leaves the queue as it was; a call that throws has changed nothing. *)
Theorem one_notification_per_mutation
  (q : circular_queue T) (m : method T) (l : list string) :
  wf T q -> index_safe T q -> logger T q = Some l ->
  match invoke T T_default to_string m q with
  | Ret r q' =>
      logger T q' = Some (l ++ event_of T to_string m r) /\
      List.length (event_of T to_string m r) = (if mutating T m then 1 else 0)%nat /\
      (mutating T m = false -> q' = q)
  | Throw _ q' => q' = q
  | Undefined => False
  end.
Proof.
  intros Hwf Hs Hl.
  pose proof (invoke_log q m) as H. pose proof (invoke_defined q m Hwf Hs) as Hd.
  destruct (invoke _ _ _ _ _) as [r q'|e q'|]; auto.
  destruct H as (Hlog & Hlen & Hpure). split_all; auto.
  rewrite Hlog, Hl.
  destruct (event_of T to_string m r) as [|msg [|msg' rest]]; cbn.
  - now rewrite app_nil_r.
  - reflexivity.
  - cbn in Hlen. destruct (mutating T m); discriminate.
Qed.

(** C10: every state reached from a successful construction by any
    sequence of calls, whether they return or throw, has
    [0 <= size <= capacity]. *)
Theorem count_within_capacity (q : circular_queue T) :
  reachable T T_default to_string q -> 0 <= size T q <= capacity T q.
Proof.
  intros H. apply reachable_count in H. tauto.
Qed.

(** *** resize *)


(** C4: the claim fails where the requested capacity is 0 and the queue is
    empty.  [resize(0)] on a freshly constructed queue returns normally and
    leaves a queue of capacity 0, on which the next [enqueue] computes a
    remainder modulo 0. *)
Theorem resize_to_zero_accepted (cb : callback) (v : T) :
  exists q q',
    construct T T_default 1 cb = inr q /\
    resize T T_default 0 q = Ret tt q' /\
    capacity T q' = 0 /\
    enqueue T to_string v q' = Undefined.
Proof.
  eexists. eexists. split_all; reflexivity.
Qed.

End CircularQueueProperties.

(** ** The header-only implementation at [int], on concrete queues *)

Section CircularQueueExamples.
Import CircularQueue.

Ltac by_computation :=
  vm_compute; repeat split; intros; try discriminate; try reflexivity.

Lemma construct_checks_capacity_witness :
  (exists what, construct Z 0 0 None = inl (invalid_argument what)) /\
  (exists q, construct Z 0 3 None = inr q /\ capacity Z q = 3 /\ size Z q = 0).
Proof.
  destruct (construct_checks_capacity Z 0 0 None) as (Hfail & _ & _).
  destruct (construct_checks_capacity Z 0 3 None) as (_ & Hprop & Hsucc).
  split.
  - apply Hfail. by_computation.
  - destruct Hsucc as (q & Hq); [by_computation|].
    exists q. split; [exact Hq|].
    destruct (Hprop q Hq) as (_ & Hcap & Hsize & _). split; assumption.
Defined.

Lemma dequeue_empty_throws_witness :
  dequeue Z int_to_string (mk Z [0; 0] (-1) (-1) 0 2 (Some [])) =
  Throw (underflow_error "Queue is empty") (mk Z [0; 0] (-1) (-1) 0 2 (Some [])).
Proof.
  apply (dequeue_empty_throws Z int_to_string
           (mk Z [0; 0] (-1) (-1) 0 2 (Some []))).
  reflexivity.
Defined.

Lemma peek_then_dequeue_witness :
  exists q',
    peek Z (mk Z [10; 20; 30; 0; 0] 0 2 3 5 None) =
      Ret 10 (mk Z [10; 20; 30; 0; 0] 0 2 3 5 None) /\
    dequeue Z int_to_string (mk Z [10; 20; 30; 0; 0] 0 2 3 5 None) = Ret 10 q' /\
    size Z q' = 2.
Proof.
  destruct (peek_then_dequeue Z 0 int_to_string (mk Z [10; 20; 30; 0; 0] 0 2 3 5 None))
    as (Hne & _); [by_computation|].
  destruct Hne as (x & q' & Hx & Hpeek & Hdeq & _ & Hsize & _); [by_computation|].
  assert (x = 10) by (vm_compute in Hx; congruence). subst x.
  exists q'. repeat split; assumption.
Defined.

(** Capacity 3, enqueue 1, 2, 3, 4: the queue holds 2, 3, 4. *)
Lemma enqueue_overwrites_oldest_witness :
  exists q0 q3 q4,
    construct Z 0 3 None = inr q0 /\
    enqueue_all Z int_to_string [1; 2; 3] q0 = Ret tt q3 /\
    enqueue Z int_to_string 4 q3 = Ret tt q4 /\
    size Z q4 = 3 /\
    get_all_elements Z q4 = Ret [2; 3; 4] q4.
Proof.
  exists (mk Z [0; 0; 0] (-1) (-1) 0 3 None), (mk Z [1; 2; 3] 0 2 3 3 None).
  destruct (enqueue_overwrites_oldest Z 0 int_to_string (mk Z [1; 2; 3] 0 2 3 3 None) 4)
    as (q4 & Henq & _ & _ & Hfull); [by_computation|].
  destruct Hfull as (_ & _ & Hsize & _ & Hsnap); [reflexivity|].
  exists q4. repeat split; try reflexivity; try assumption.
  apply (Hsnap ltac:(by_computation) [1; 2; 3]). reflexivity.
Defined.

Lemma snapshot_after_enqueues_witness :
  exists q,
    enqueue_all Z int_to_string [10; 20; 30] (mk Z [0; 0; 0; 0; 0] (-1) (-1) 0 5 None)
      = Ret tt q /\
    get_all_elements Z q = Ret [10; 20; 30] q /\
    get_size Z q = Ret 3 q.
Proof.
  destruct (snapshot_after_enqueues Z 0 int_to_string 5 None
              (mk Z [0; 0; 0; 0; 0] (-1) (-1) 0 5 None) [10; 20; 30])
    as (q & Hrun & Hall & Hsize & _); [by_computation | by_computation | by_computation |].
  exists q. repeat split; assumption.
Defined.

Lemma full_and_empty_predicates_witness :
  exists q1,
    enqueue_all Z int_to_string [1; 2] (mk Z [0; 0] (-1) (-1) 0 2 None) = Ret tt q1 /\
    is_full Z q1 = Ret true q1.
Proof.
  destruct (full_and_empty_predicates Z 0 int_to_string
              (mk Z [0; 0] (-1) (-1) 0 2 None) 2 None
              (mk Z [0; 0] (-1) (-1) 0 2 None) [1; 2])
    as (_ & _ & Hfill).
  destruct Hfill as (q1 & b & Hrun & _ & Hfull & Hb);
    [by_computation | by_computation | by_computation |].
  exists q1. split; [exact Hrun|].
  assert (b = true) by (apply Hb; reflexivity). subst b. exact Hfull.
Defined.

Lemma one_notification_per_mutation_witness :
  match invoke Z 0 int_to_string (Enqueue Z 4) (mk Z [1; 2; 3] 0 2 3 3 (Some [])) with
  | Ret r q' =>
      logger Z q' = Some ([] ++ event_of Z int_to_string (Enqueue Z 4) r) /\
      List.length (event_of Z int_to_string (Enqueue Z 4) r) = 1%nat /\
      (true = false -> q' = mk Z [1; 2; 3] 0 2 3 3 (Some []))
  | Throw _ q' => q' = mk Z [1; 2; 3] 0 2 3 3 (Some [])
  | Undefined => False
  end.
Proof.
  apply (one_notification_per_mutation Z 0 int_to_string
           (mk Z [1; 2; 3] 0 2 3 3 (Some [])) (Enqueue Z 4) []);
    by_computation.
Defined.

Lemma count_within_capacity_witness :
  0 <= size Z (mk Z [7; 0] 0 0 1 2 None) <= capacity Z (mk Z [7; 0] 0 0 1 2 None).
Proof.
  apply (count_within_capacity Z 0 int_to_string).
  apply (reachable_invoke Z 0 int_to_string (Enqueue Z 7)
           (mk Z [0; 0] (-1) (-1) 0 2 None)).
  - apply (reachable_construct Z 0 int_to_string 2 None); by_computation.
  - exact I.
  - reflexivity.
Defined.

(** C8, as stated, fails for a call that fails: [dequeue] is one of the
    mutating methods, yet on an empty queue it throws before it reaches the
    callback, which has still received nothing afterwards. *)
Lemma failed_dequeue_sends_no_notification :
  mutating Z (Dequeue Z) = true /\
  invoke Z 0 int_to_string (Dequeue Z) (mk Z [0] (-1) (-1) 0 1 (Some []))
    = Throw (underflow_error "Queue is empty") (mk Z [0] (-1) (-1) 0 1 (Some [])) /\
  (forall msg q',
     state_after Z (invoke Z 0 int_to_string (Dequeue Z) (mk Z [0] (-1) (-1) 0 1 (Some [])))
       = Some q' ->
     logger Z q' <> Some ([] ++ [msg])).
Proof.
  split; [reflexivity|]. split; [reflexivity|].
  intros msg q' H. vm_compute in H. injection H as <-. discriminate.
Qed.

End CircularQueueExamples.

(** ** The two implementations compared *)

Section VariantsProperties.
Import CircularQueue Variants.
Variable T : Type.
Variable T_default : T.
Variable to_string : T -> string.

Arguments int_add : simpl never.
Arguments int_sub : simpl never.
Arguments int_rem : simpl never.
Arguments array_get : simpl never.
Arguments array_set : simpl never.
Arguments Z.modulo : simpl never.
Arguments Z.add : simpl never.
Arguments Z.sub : simpl never.
Arguments Z.mul : simpl never.
Arguments Z.eqb : simpl never.
Arguments Z.ltb : simpl never.
Arguments Z.leb : simpl never.
Arguments Z.of_nat : simpl never.
Arguments Z.to_nat : simpl never.
Arguments String.append : simpl never.

Ltac unfold_lib :=
  unfold bind, get, ret, throw, undefined,
    Library.set_front, Library.set_rear, Library.notify, Library.notify_slot,
    Library.load, Library.store in *.

Ltac int_ok := unfold in_int, INT_MIN, INT_MAX in *; lia.
Ltac split_all := repeat match goal with |- _ /\ _ => split end.

(** In a well-formed non-empty queue [front] meets [rear] exactly when one
    element is left. *)
Lemma front_eq_rear (q : circular_queue T) :
  wf T q -> 0 < size T q -> (front T q =? rear T q) = (size T q =? 1).
Proof.
  intros (Hlen & Hcap & Hsz & Hidx) Hpos. destruct Hidx as [Hf Hr]; [assumption|].
  destruct (Z.eqb_spec (size T q) 1) as [E|E].
  - apply Z.eqb_eq. rewrite Hr, E.
    replace (front T q + 1 - 1) with (front T q) by lia.
    now rewrite Z.mod_small by lia.
  - apply Z.eqb_neq. intros Eq. rewrite Hr in Eq.
    apply (mod_offset_neq (front T q) 0 (size T q - 1) (capacity T q)); try lia.
    rewrite Z.add_0_r, Z.mod_small by lia.
    rewrite Eq at 1. f_equal. lia.
Qed.

Lemma sim_is_full (q1 : circular_queue T) (q2 : Library.circular_queue T) :
  sim T T_default q1 q2 ->
  Library.is_full T q2 = Ret (size T q1 =? capacity T q1) q2.
Proof.
  intros (Hwf & Hc & Hf & Hr & Hemp & Hl & Harr).
  pose proof Hwf as (Hlen & Hcap & Hsz & Hidx).
  unfold Library.is_full. unfold_lib. cbn. rewrite Hc, Hf, Hr.
  destruct (Z.eq_dec (size T q1) 0) as [E|E].
  - destruct (Hemp E) as [-> ->].
    rewrite int_add_id by int_ok. rewrite int_rem_mod by lia. cbn.
    rewrite Z.mod_0_l by lia. rewrite E.
    destruct (Z.eqb_spec 0 (capacity T q1)); [lia|reflexivity].
  - destruct Hidx as [Hf1 Hr1]; [lia|].
    assert (0 <= rear T q1 < capacity T q1)
      by (rewrite Hr1; apply Z.mod_pos_bound; lia).
    rewrite int_add_id by int_ok. rewrite int_rem_mod by lia. cbn.
    f_equal. rewrite Hr1, Z.add_mod_idemp_l by lia.
    replace (front T q1 + size T q1 - 1 + 1) with (front T q1 + size T q1) by lia.
    destruct (Z.eqb_spec (size T q1) (capacity T q1)) as [E1|E1].
    + apply Z.eqb_eq. rewrite E1.
      replace (front T q1 + capacity T q1) with (front T q1 + 1 * capacity T q1) by lia.
      rewrite Z.mod_add by lia. apply Z.mod_small; lia.
    + apply Z.eqb_neq. intros Eq.
      apply (mod_offset_neq (front T q1) 0 (size T q1) (capacity T q1)); try lia.
      rewrite Z.add_0_r, Z.mod_small by lia. congruence.
Qed.

Lemma sim_front_occupied (q1 : circular_queue T) (q2 : Library.circular_queue T) :
  sim T T_default q1 q2 -> 0 < size T q1 ->
  array_get (Library.arr T q2) (front T q1)
  = Some (Some (nth (Z.to_nat (front T q1)) (arr T q1) T_default)).
Proof.
  intros (Hwf & Hc & Hf & Hr & Hemp & Hl & Harr) Hpos.
  pose proof Hwf as (Hlen & Hcap & Hsz & Hidx).
  destruct Hidx as [Hf1 Hr1]; [lia|].
  rewrite (array_get_nth _ _ None) by lia.
  rewrite Harr; [reflexivity|lia|].
  rewrite Z.sub_diag, Z.mod_0_l by lia. assumption.
Qed.

Lemma library_dequeue_empty (q2 : Library.circular_queue T) :
  Library.front T q2 = -1 ->
  Library.dequeue T T_default to_string q2 =
  Ret T_default
      (Library.mk T (Library.arr T q2) (Library.front T q2) (Library.rear T q2)
         (Library.size T q2)
         (call (Library.logger T q2) "Queue is empty! Cannot dequeue.")).
Proof.
  intros E. destruct q2 as [a2 f2 r2 s2 lg2]. cbn in E. subst f2. reflexivity.
Qed.

Lemma library_dequeue_ret (q1 : circular_queue T) (q2 : Library.circular_queue T) :
  sim T T_default q1 q2 -> 0 < size T q1 ->
  Library.dequeue T T_default to_string q2 =
  Ret (nth (Z.to_nat (front T q1)) (arr T q1) T_default)
      (Library.mk T (Library.arr T q2)
         (if size T q1 =? 1 then -1 else (front T q1 + 1) mod capacity T q1)
         (if size T q1 =? 1 then -1 else rear T q1)
         (capacity T q1)
         (call (Library.logger T q2)
            ("Dequeued: " ++ to_string (nth (Z.to_nat (front T q1)) (arr T q1) T_default))%string)).
Proof.
  intros Hsim Hpos. pose proof (sim_front_occupied q1 q2 Hsim Hpos) as Hget.
  destruct Hsim as (Hwf & Hc & Hf & Hr & Hemp & Hl & Harr).
  pose proof (front_eq_rear q1 Hwf Hpos) as Hfr.
  pose proof Hwf as (Hlen & Hcap & Hsz & Hidx).
  destruct Hidx as [Hf1 Hr1]; [lia|].
  destruct q2 as [a2 f2 r2 s2 lg2]. cbn in Hc, Hf, Hr, Hget |- *. subst f2 r2 s2.
  unfold Library.dequeue, Library.is_empty. unfold_lib. cbn.
  destruct (Z.eqb_spec (front T q1) (-1)); [lia|]. cbn.
  rewrite Hget. cbn. rewrite Hfr.
  destruct (size T q1 =? 1); cbn.
  - reflexivity.
  - rewrite int_add_id by int_ok. rewrite int_rem_mod by lia. reflexivity.
Qed.

Lemma library_enqueue_ret
  (q1 : circular_queue T) (q2 : Library.circular_queue T) (v : T) :
  sim T T_default q1 q2 ->
  Library.enqueue T T_default to_string v q2 =
  Ret tt
      (Library.mk T
         (list_set (Library.arr T q2)
            (Z.to_nat (if size T q1 =? 0 then 0 else (rear T q1 + 1) mod capacity T q1))
            (Some v))
         (if size T q1 =? capacity T q1 then (front T q1 + 1) mod capacity T q1
          else if size T q1 =? 0 then 0 else front T q1)
         (if size T q1 =? 0 then 0 else (rear T q1 + 1) mod capacity T q1)
         (capacity T q1)
         (call (if size T q1 =? capacity T q1
                then call (Library.logger T q2)
                       ("Dequeued: " ++
                        to_string (nth (Z.to_nat (front T q1)) (arr T q1) T_default))%string
                else Library.logger T q2)
            ("Enqueued: " ++ to_string v)%string)).
Proof.
  intros Hsim. pose proof (sim_is_full q1 q2 Hsim) as Hfull.
  pose proof (library_dequeue_ret q1 q2 Hsim) as Hdeq.
  destruct Hsim as (Hwf & Hc & Hf & Hr & Hemp & Hl & Harr).
  pose proof Hwf as (Hlen & Hcap & Hsz & Hidx).
  destruct q2 as [a2 f2 r2 s2 lg2]. cbn in Hc, Hf, Hr, Hl |- *. subst f2 r2 s2.
  assert (Hlen2 : Z.of_nat (List.length a2) = capacity T q1) by lia.
  unfold Library.enqueue, bind. rewrite Hfull.
  destruct (Z.eqb_spec (size T q1) (capacity T q1)) as [E|E].
  - rewrite Hdeq by lia. destruct Hidx as [Hf1 Hr1]; [lia|].
    assert (0 <= rear T q1 < capacity T q1)
      by (rewrite Hr1; apply Z.mod_pos_bound; lia).
    destruct (Z.eqb_spec (size T q1) 0); [lia|].
    unfold_lib. cbn.
    destruct (Z.eqb_spec (size T q1) 1) as [E1|E1]; cbn.
    + assert (Hc1 : capacity T q1 = 1) by lia.
      rewrite Z.eqb_refl. cbn.
      rewrite int_add_id by int_ok. rewrite int_rem_mod by lia. cbn.
      rewrite Hc1 in *. rewrite !Z.mod_1_r.
      rewrite array_set_in by lia. reflexivity.
    + pose proof (Z.mod_pos_bound (front T q1 + 1) (capacity T q1)).
      destruct (Z.eqb_spec ((front T q1 + 1) mod capacity T q1) (-1)); [lia|]. cbn.
      rewrite int_add_id by int_ok. rewrite int_rem_mod by lia. cbn.
      rewrite array_set_in
        by (pose proof (Z.mod_pos_bound (rear T q1 + 1) (capacity T q1)); lia).
      reflexivity.
  - unfold_lib. cbn.
    destruct (Z.eqb_spec (size T q1) 0) as [E0|E0].
    + destruct (Hemp E0) as [Ef Er]. rewrite Ef, Er. rewrite Z.eqb_refl. cbn.
      rewrite int_add_id by int_ok. rewrite int_rem_mod by lia. cbn.
      rewrite Z.mod_0_l by lia.
      rewrite array_set_in by lia. reflexivity.
    + destruct Hidx as [Hf1 Hr1]; [lia|].
      assert (0 <= rear T q1 < capacity T q1)
        by (rewrite Hr1; apply Z.mod_pos_bound; lia).
      destruct (Z.eqb_spec (front T q1) (-1)); [lia|]. cbn.
      rewrite int_add_id by int_ok. rewrite int_rem_mod by lia. cbn.
      rewrite array_set_in
        by (pose proof (Z.mod_pos_bound (rear T q1 + 1) (capacity T q1)); lia).
      reflexivity.
Qed.

Lemma library_peek_empty (q2 : Library.circular_queue T) :
  Library.front T q2 = -1 ->
  Library.peek T T_default to_string q2 =
  Ret T_default
      (Library.mk T (Library.arr T q2) (Library.front T q2) (Library.rear T q2)
         (Library.size T q2)
         (call (Library.logger T q2) "Queue is empty! No front element.")).
Proof.
  intros E. destruct q2 as [a2 f2 r2 s2 lg2]. cbn in E. subst f2. reflexivity.
Qed.

Lemma library_peek_ret (q1 : circular_queue T) (q2 : Library.circular_queue T) :
  sim T T_default q1 q2 -> 0 < size T q1 ->
  Library.peek T T_default to_string q2 =
  Ret (nth (Z.to_nat (front T q1)) (arr T q1) T_default)
      (Library.mk T (Library.arr T q2) (Library.front T q2) (Library.rear T q2)
         (Library.size T q2)
         (call (Library.logger T q2)
            ("Peeked at: " ++ to_string (nth (Z.to_nat (front T q1)) (arr T q1) T_default))%string)).
Proof.
  intros Hsim Hpos. pose proof (sim_front_occupied q1 q2 Hsim Hpos) as Hget.
  destruct Hsim as (Hwf & Hc & Hf & Hr & Hemp & Hl & Harr).
  pose proof Hwf as (Hlen & Hcap & Hsz & Hidx).
  destruct Hidx as [Hf1 Hr1]; [lia|].
  destruct q2 as [a2 f2 r2 s2 lg2]. cbn in Hc, Hf, Hr, Hget |- *. subst f2 r2 s2.
  unfold Library.peek, Library.is_empty. unfold_lib. unfold_lib. cbn.
  destruct (Z.eqb_spec (front T q1) (-1)); [lia|]. cbn.
  destruct lg2 as [received2|]; cbn; rewrite Hget; cbn; try rewrite Hget; reflexivity.
Qed.

(** *** The correspondence is established by construction and kept by calls *)

Lemma mod_recover (f p c : Z) :
  0 < c -> 0 <= p < c -> (f + (p - f) mod c) mod c = p.
Proof.
  intros Hc Hp. rewrite Z.add_mod_idemp_r by lia.
  replace (f + (p - f)) with p by lia. apply Z.mod_small; lia.
Qed.

Lemma sim_construct (n : Z) (cb1 cb2 : callback)
  (q1 : circular_queue T) (q2 : Library.circular_queue T) :
  in_int n ->
  construct T T_default n cb1 = inr q1 ->
  Library.construct T n cb2 = inr q2 ->
  sim T T_default q1 q2.
Proof.
  intros Hn H1 H2. pose proof (construct_wf T T_default n cb1 q1 Hn H1) as Hwf.
  destruct (Z.le_gt_cases n 0).
  { rewrite construct_throw in H1 by assumption. discriminate. }
  rewrite construct_ret in H1 by assumption. injection H1 as <-.
  unfold Library.construct in H2. destruct (Z.ltb_spec n 0); [lia|].
  injection H2 as <-. unfold sim; cbn. split_all; auto.
  - now rewrite !repeat_length.
  - intros p Hp Hocc. pose proof (Z.mod_pos_bound (p - -1) n). lia.
Qed.

Lemma sim_logger (q1 : circular_queue T) (q2 : Library.circular_queue T) (lg : callback) :
  sim T T_default q1 q2 ->
  sim T T_default q1
    (Library.mk T (Library.arr T q2) (Library.front T q2) (Library.rear T q2)
       (Library.size T q2) lg).
Proof. intros H. exact H. Qed.

Lemma sim_enqueue (q1 q1' : circular_queue T) (q2 q2' : Library.circular_queue T) (v : T) :
  sim T T_default q1 q2 ->
  enqueue T to_string v q1 = Ret tt q1' ->
  Library.enqueue T T_default to_string v q2 = Ret tt q2' ->
  sim T T_default q1' q2'.
Proof.
  intros Hsim H1 H2. pose proof Hsim as (Hwf & Hc & Hf & Hr & Hemp & Hl & Harr).
  pose proof (enqueue_wf T to_string q1 q1' v Hwf H1) as Hwf'.
  rewrite library_enqueue_ret with (q1 := q1) in H2 by assumption.
  rewrite enqueue_ret in H1 by assumption.
  injection H1 as <-. injection H2 as <-.
  pose proof Hwf as (Hlen & Hcap & Hsz & Hidx).
  unfold sim. cbn [Library.arr Library.front Library.rear Library.size Library.logger
                   arr front rear size capacity logger].
  split_all; auto.
  - intros E. destruct (Z.eqb_spec (size T q1) (capacity T q1)); lia.
  - now rewrite !list_set_length.
  - intros p Hp Hocc.
    set (w := if size T q1 =? 0 then 0 else (rear T q1 + 1) mod capacity T q1) in *.
    assert (Hw : 0 <= w < capacity T q1).
    { subst w. destruct (size T q1 =? 0); [lia|]. apply Z.mod_pos_bound. lia. }
    destruct (Z.eq_dec p w) as [->|Np].
    + rewrite !nth_list_set_same by lia. reflexivity.
    + rewrite !nth_list_set_other by lia. apply Harr; [assumption|].
      destruct (Z.eqb_spec (size T q1) (capacity T q1)) as [E|E].
      * rewrite E. apply Z.mod_pos_bound. lia.
      * destruct (Z.eqb_spec (size T q1) 0) as [E0|E0].
        -- exfalso. apply Np. subst w.
           rewrite Z.sub_0_r, Z.mod_small in Hocc by lia. lia.
        -- destruct Hidx as [Hf1 Hr1]; [lia|].
           pose proof (Z.mod_pos_bound (p - front T q1) (capacity T q1)).
           destruct (Z.eq_dec ((p - front T q1) mod capacity T q1) (size T q1)) as [Eq|Nq];
             [|lia].
           exfalso. apply Np. subst w.
           rewrite Hr1, Z.add_mod_idemp_l by lia.
           replace (front T q1 + size T q1 - 1 + 1) with (front T q1 + size T q1) by lia.
           rewrite <- Eq. symmetry. apply mod_recover; lia.
Qed.

Lemma sim_dequeue (q1 q1' : circular_queue T) (q2 q2' : Library.circular_queue T) (x1 x2 : T) :
  sim T T_default q1 q2 ->
  dequeue T to_string q1 = Ret x1 q1' ->
  Library.dequeue T T_default to_string q2 = Ret x2 q2' ->
  x1 = x2 /\ sim T T_default q1' q2'.
Proof.
  intros Hsim H1 H2. pose proof Hsim as (Hwf & Hc & Hf & Hr & Hemp & Hl & Harr).
  pose proof (dequeue_wf T T_default to_string q1 q1' x1 Hwf H1) as Hwf'.
  destruct (Z.eq_dec (size T q1) 0) as [E|E].
  { rewrite dequeue_empty in H1 by assumption. discriminate. }
  pose proof Hwf as (Hlen & Hcap & Hsz & Hidx).
  rewrite library_dequeue_ret with (q1 := q1) in H2 by (auto; lia).
  rewrite (dequeue_ret T T_default) in H1 by (auto; lia).
  injection H1 as <- <-. injection H2 as <- <-.
  split; [reflexivity|].
  unfold sim. cbn [Library.arr Library.front Library.rear Library.size Library.logger
                   arr front rear size capacity logger].
  split_all; auto.
  - intros E1. destruct (Z.eqb_spec (size T q1) 1); [split; reflexivity|lia].
  - intros p Hp Hocc. apply Harr; [assumption|].
    destruct (Z.eqb_spec (size T q1) 1) as [E1|E1].
    + pose proof (Z.mod_pos_bound (p - -1) (capacity T q1)). lia.
    + rewrite Zminus_mod_idemp_r in Hocc.
      replace (p - (front T q1 + 1)) with (p - front T q1 - 1) in Hocc by lia.
      rewrite <- Zminus_mod_idemp_l in Hocc.
      pose proof (Z.mod_pos_bound (p - front T q1) (capacity T q1)) as Hd.
      destruct (Z.eq_dec ((p - front T q1) mod capacity T q1) 0) as [E0|E0].
      * rewrite E0 in Hocc.
        replace (0 - 1) with (capacity T q1 - 1 + (-1) * capacity T q1) in Hocc by lia.
        rewrite Z.mod_add, Z.mod_small in Hocc by lia. lia.
      * rewrite Z.mod_small in Hocc by lia. lia.
Qed.

Lemma sim_clear (q1 q1' : circular_queue T) (q2 q2' : Library.circular_queue T) :
  sim T T_default q1 q2 ->
  clear T q1 = Ret tt q1' ->
  Library.clear T q2 = Ret tt q2' ->
  sim T T_default q1' q2'.
Proof.
  intros Hsim H1 H2. pose proof Hsim as (Hwf & Hc & Hf & Hr & Hemp & Hl & Harr).
  pose proof (clear_wf T q1 q1' Hwf H1) as Hwf'.
  rewrite clear_ret in H1. injection H1 as <-.
  unfold Library.clear in H2. unfold_lib. cbn in H2. injection H2 as <-.
  unfold sim; cbn. split_all; auto.
  intros p Hp Hocc. pose proof (Z.mod_pos_bound (p - -1) (capacity T q1)). lia.
Qed.

Lemma sim_count (q1 : circular_queue T) (q2 : Library.circular_queue T) :
  sim T T_default q1 q2 -> Library.count T q2 = size T q1.
Proof.
  intros (Hwf & Hc & Hf & Hr & Hemp & Hl & Harr).
  pose proof Hwf as (Hlen & Hcap & Hsz & Hidx).
  unfold Library.count. rewrite Hf, Hr, Hc.
  destruct (Z.eq_dec (size T q1) 0) as [E|E].
  - destruct (Hemp E) as [-> _]. rewrite E. reflexivity.
  - destruct Hidx as [Hf1 Hr1]; [lia|].
    destruct (Z.eqb_spec (front T q1) (-1)); [lia|].
    rewrite Hr1, Zminus_mod_idemp_l.
    replace (front T q1 + size T q1 - 1 - front T q1) with (size T q1 - 1) by lia.
    rewrite Z.mod_small by lia. lia.
Qed.

Lemma sim_slot (q1 : circular_queue T) (q2 : Library.circular_queue T) (i : Z) :
  sim T T_default q1 q2 -> 0 <= i < size T q1 ->
  nth (Z.to_nat (slot T q1 i)) (Library.arr T q2) None
  = Some (nth (Z.to_nat (slot T q1 i)) (arr T q1) T_default).
Proof.
  intros (Hwf & Hc & Hf & Hr & Hemp & Hl & Harr) Hi.
  pose proof Hwf as (Hlen & Hcap & Hsz & Hidx). unfold slot.
  apply Harr; [apply Z.mod_pos_bound; lia|].
  rewrite Zminus_mod_idemp_l.
  replace (front T q1 + i - front T q1) with i by lia.
  rewrite Z.mod_small; lia.
Qed.

(** Corresponding queues hold the same elements in the same order. *)
Lemma sim_contents (q1 : circular_queue T) (q2 : Library.circular_queue T) :
  sim T T_default q1 q2 ->
  Library.contents T q2 = map Some (contents T T_default q1).
Proof.
  intros Hsim. unfold Library.contents, contents.
  rewrite (sim_count q1 q2 Hsim), map_map.
  apply map_ext_in. intros i Hi. apply in_seq in Hi.
  destruct Hsim as (Hwf & Hc & Hf & Hr & Hemp & Hl & Harr) eqn:E. clear E.
  rewrite Hf, Hc. fold (slot T q1 (Z.of_nat i)).
  apply sim_slot; [assumption|lia].
Qed.

(** One call on corresponding queues: both are defined, the replies agree,
    and the queues correspond again. *)
Lemma sim_call (o : op T) (q1 : circular_queue T) (q2 : Library.circular_queue T) :
  sim T T_default q1 q2 ->
  exists r1 q1' r2 q2',
    run T (header_call T to_string) [o] q1 = Some ([r1], q1') /\
    run T (library_call T T_default to_string) [o] q2 = Some ([r2], q2') /\
    agree T T_default r1 r2 /\
    (0 < size T q1 -> r1 = r2) /\
    sim T T_default q1' q2'.
Proof.
  intros Hsim. pose proof Hsim as (Hwf & Hc & Hf & Hr & Hemp & Hl & Harr).
  pose proof Hwf as (Hlen & Hcap & Hsz & Hidx).
  destruct o as [v| | |]; cbn [run header_call library_call]; unfold bind, ret.
  - pose proof (enqueue_ret T to_string q1 v Hwf) as H1.
    pose proof (library_enqueue_ret q1 q2 v Hsim) as H2.
    pose proof (sim_enqueue _ _ _ _ v Hsim H1 H2) as Hsim'.
    rewrite H1, H2. do 4 eexists. split_all; try reflexivity.
    + left; reflexivity.
    + exact Hsim'.
  - destruct (Z.eq_dec (size T q1) 0) as [E|E].
    + rewrite dequeue_empty by assumption.
      rewrite library_dequeue_empty by (destruct (Hemp E); congruence).
      do 4 eexists. split_all; try reflexivity.
      * right. split; reflexivity.
      * lia.
      * apply sim_logger. exact Hsim.
    + pose proof (dequeue_ret T T_default to_string q1 Hwf ltac:(lia)) as H1.
      pose proof (library_dequeue_ret q1 q2 Hsim ltac:(lia)) as H2.
      destruct (sim_dequeue _ _ _ _ _ _ Hsim H1 H2) as [_ Hsim'].
      rewrite H1, H2. do 4 eexists. split_all; try reflexivity.
      * left; reflexivity.
      * exact Hsim'.
  - destruct (Z.eq_dec (size T q1) 0) as [E|E].
    + rewrite peek_empty by assumption.
      rewrite library_peek_empty by (destruct (Hemp E); congruence).
      do 4 eexists. split_all; try reflexivity.
      * right. split; reflexivity.
      * lia.
      * apply sim_logger. exact Hsim.
    + rewrite (peek_ret T T_default) by (auto; lia).
      rewrite (library_peek_ret q1 q2 Hsim) by lia.
      do 4 eexists. split_all; try reflexivity.
      * left; reflexivity.
      * apply sim_logger. exact Hsim.
  - pose proof (clear_ret T q1) as H1.
    assert (H2 : exists q2', Library.clear T q2 = Ret tt q2') by (eexists; reflexivity).
    destruct H2 as (q2' & H2).
    pose proof (sim_clear _ _ _ _ Hsim H1 H2) as Hsim'.
    rewrite H1, H2. do 4 eexists. split_all; try reflexivity.
    + left; reflexivity.
    + exact Hsim'.
Qed.

Lemma run_cons {S} (call : op T -> M S (option T)) (o : op T) (ops : list (op T))
  (s s1 s2 : S) (r : reply T) (rs : list (reply T)) :
  run T call [o] s = Some ([r], s1) ->
  run T call ops s1 = Some (rs, s2) ->
  run T call (o :: ops) s = Some (r :: rs, s2).
Proof.
  cbn. intros H1 H2.
  destruct (call o s) as [x s'|e s'|]; try discriminate;
    injection H1 as <- <-; now rewrite H2.
Qed.

Lemma sim_run (ops : list (op T)) (q1 : circular_queue T) (q2 : Library.circular_queue T) :
  sim T T_default q1 q2 ->
  exists rs1 q1' rs2 q2',
    run T (header_call T to_string) ops q1 = Some (rs1, q1') /\
    run T (library_call T T_default to_string) ops q2 = Some (rs2, q2') /\
    Forall2 (agree T T_default) rs1 rs2 /\
    sim T T_default q1' q2'.
Proof.
  revert q1 q2. induction ops as [|o ops IH]; intros q1 q2 Hsim.
  - exists [], q1, [], q2. cbn. auto.
  - destruct (sim_call o q1 q2 Hsim) as (r1 & s1 & r2 & s2 & H1 & H2 & Hag & _ & Hsim1).
    destruct (IH s1 s2 Hsim1) as (rs1 & q1' & rs2 & q2' & R1 & R2 & Hall & Hsim').
    exists (r1 :: rs1), q1', (r2 :: rs2), q2'. split_all; auto.
    + eapply run_cons; eauto.
    + eapply run_cons; eauto.
Qed.

(** *** What [display] shows *)

Lemma display_loop_ret
  (q1 : circular_queue T) (q2 : Library.circular_queue T) (k : nat) :
  sim T T_default q1 q2 ->
  forall (fuel : nat) (j : nat) (lg : list string),
    (k <= fuel)%nat ->
    Z.of_nat j + Z.of_nat k = size T q1 - 1 ->
    Library.display_loop T to_string fuel (slot T q1 (Z.of_nat j))
      (Library.mk T (Library.arr T q2) (Library.front T q2) (Library.rear T q2)
         (Library.size T q2) (Some lg))
    = Some (Ret tt
        (Library.mk T (Library.arr T q2) (Library.front T q2) (Library.rear T q2)
           (Library.size T q2)
           (Some (lg ++ map (fun i => to_string
                               (nth (Z.to_nat (slot T q1 (Z.of_nat i))) (arr T q1) T_default))
                            (seq j k))))).
Proof.
  intros Hsim. pose proof Hsim as (Hwf & Hc & Hf & Hr & Hemp & Hl & Harr).
  pose proof Hwf as (Hlen & Hcap & Hsz & Hidx).
  destruct q2 as [a2 f2 r2 s2 lg2].
  cbn [Library.arr Library.front Library.rear Library.size Library.logger] in *.
  subst f2 r2 s2.
  induction k as [|k IH]; intros fuel j lg Hfuel Hj.
  - destruct Hidx as [Hf1 Hr1]; [lia|].
    assert (E : slot T q1 (Z.of_nat j) = rear T q1).
    { unfold slot. rewrite Hr1. f_equal. lia. }
    destruct fuel; cbn [Library.display_loop Library.rear];
      rewrite E, Z.eqb_refl; cbn [seq map]; now rewrite app_nil_r.
  - destruct Hidx as [Hf1 Hr1]; [lia|].
    destruct fuel as [|fuel]; [lia|].
    cbn [Library.display_loop Library.rear Library.size].
    assert (N : slot T q1 (Z.of_nat j) <> rear T q1).
    { unfold slot. rewrite Hr1.
      replace (front T q1 + size T q1 - 1) with (front T q1 + (size T q1 - 1)) by lia.
      apply mod_offset_neq; lia. }
    destruct (Z.eqb_spec (slot T q1 (Z.of_nat j)) (rear T q1)); [contradiction|].
    pose proof (slot_bound T q1 (Z.of_nat j) Hwf) as Hb.
    pose proof (sim_slot q1 _ (Z.of_nat j) Hsim ltac:(lia)) as Hs.
    cbn [Library.arr] in Hs.
    unfold_lib. unfold_lib. cbn.
    rewrite (array_get_nth _ _ None) by lia.
    rewrite Hs. cbn.
    rewrite int_add_id by int_ok. rewrite int_rem_mod by lia.
    replace ((slot T q1 (Z.of_nat j) + 1) mod capacity T q1)
      with (slot T q1 (Z.of_nat (Datatypes.S j))).
    2:{ unfold slot. rewrite Z.add_mod_idemp_l by lia. f_equal. lia. }
    rewrite IH by lia. rewrite <- app_assoc. reflexivity.
Qed.

(** On a non-empty queue with a callback, [display] returns and hands the
    callback the elements of the corresponding header queue, oldest first,
    followed by its closing message. *)
Lemma display_shows_contents
  (q1 : circular_queue T) (q2 : Library.circular_queue T) (lg : list string) (fuel : nat) :
  sim T T_default q1 q2 -> 0 < size T q1 ->
  Library.logger T q2 = Some lg ->
  (Z.to_nat (size T q1) <= fuel)%nat ->
  Library.display T to_string fuel q2 =
  Some (Ret tt
    (Library.mk T (Library.arr T q2) (Library.front T q2) (Library.rear T q2)
       (Library.size T q2)
       (Some (lg ++ map to_string (contents T T_default q1)
                 ++ ["Displayed queue elements."%string])))).
Proof.
  intros Hsim Hpos Hlg Hfuel.
  pose proof Hsim as (Hwf & Hc & Hf & Hr & Hemp & Hl & Harr).
  pose proof Hwf as (Hlen & Hcap & Hsz & Hidx).
  destruct Hidx as [Hf1 Hr1]; [lia|].
  pose proof (display_loop_ret q1 q2 (Z.to_nat (size T q1 - 1)) Hsim fuel 0 lg
                ltac:(lia) ltac:(lia)) as HL.
  pose proof (sim_slot q1 q2 (size T q1 - 1) Hsim ltac:(lia)) as Hs.
  pose proof (slot_bound T q1 (size T q1 - 1) Hwf) as Hb.
  assert (E0 : slot T q1 (Z.of_nat 0) = front T q1).
  { unfold slot. change (Z.of_nat 0) with 0. now rewrite Z.add_0_r, Z.mod_small by lia. }
  assert (Er : slot T q1 (size T q1 - 1) = rear T q1).
  { unfold slot. rewrite Hr1. f_equal. lia. }
  rewrite E0 in HL. rewrite Er in Hs, Hb.
  destruct q2 as [a2 f2 r2 s2 lg2].
  cbn [Library.arr Library.front Library.rear Library.size Library.logger] in *.
  subst f2 r2 s2 lg2.
  unfold Library.display. cbn [Library.front].
  destruct (Z.eqb_spec (front T q1) (-1)); [lia|].
  rewrite HL. unfold_lib. unfold_lib. cbn.
  rewrite (array_get_nth _ _ None) by lia.
  rewrite Hs. cbn.
  do 3 f_equal. rewrite <- !app_assoc. f_equal.
  unfold contents.
  replace (Z.to_nat (size T q1)) with (Z.to_nat (size T q1 - 1) + 1)%nat by lia.
  rewrite seq_app, !map_app, !map_map. cbn [seq map app Nat.add].
  rewrite <- app_assoc. cbn [app]. f_equal. f_equal. f_equal. f_equal.
  rewrite Z2Nat.id by lia. rewrite Er. reflexivity.
Qed.

(** *** Where the library differs from the header *)

(** [dequeue] on an empty library queue returns the default element and
    tells the callback, instead of throwing. *)
Lemma library_dequeue_default (q2 : Library.circular_queue T) :
  Library.is_empty T q2 = Ret true q2 ->
  exists q2',
    Library.dequeue T T_default to_string q2 = Ret T_default q2' /\
    Library.logger T q2' =
      call (Library.logger T q2) "Queue is empty! Cannot dequeue.".
Proof.
  intros H. unfold Library.is_empty in H. unfold_lib. cbn in H.
  injection H as H. apply Z.eqb_eq in H.
  rewrite library_dequeue_empty by assumption. eexists. split; reflexivity.
Qed.

(** The library constructor accepts capacity 0. *)
Lemma library_construct_zero (cb : callback) :
  Library.construct T 0 cb = inr (Library.mk T [] (-1) (-1) 0 cb).
Proof. reflexivity. Qed.

(** An [enqueue] into a full library queue tells the callback twice, and a
    [peek] tells it once. *)
Lemma library_notifications
  (q1 : circular_queue T) (q2 : Library.circular_queue T) (v : T) (lg : list string) :
  sim T T_default q1 q2 -> size T q1 = capacity T q1 ->
  Library.logger T q2 = Some lg ->
  exists q2' q2'' x m1 m2 m3,
    Library.enqueue T T_default to_string v q2 = Ret tt q2' /\
    Library.logger T q2' = Some (lg ++ [m1; m2]) /\
    Library.peek T T_default to_string q2 = Ret x q2'' /\
    Library.logger T q2'' = Some (lg ++ [m3]).
Proof.
  intros Hsim Hfull Hlg. pose proof Hsim as (Hwf & _).
  pose proof Hwf as (_ & Hcap & _).
  rewrite (library_enqueue_ret q1 q2 v Hsim).
  rewrite (library_peek_ret q1 q2 Hsim) by lia.
  do 6 eexists. split_all; try reflexivity.
  - cbn. rewrite Hlg. destruct (Z.eqb_spec (size T q1) (capacity T q1)); [|lia].
    cbn. rewrite <- app_assoc. reflexivity.
  - cbn. rewrite Hlg. reflexivity.
Qed.

(** No call of the common interface changes the header queue's capacity. *)
Lemma header_call_capacity (o : op T) (q : circular_queue T) :
  match header_call T to_string o q with
  | Ret _ s => capacity T s = capacity T q
  | Throw _ s => capacity T s = capacity T q
  | Undefined => True
  end.
Proof.
  destruct o as [v| | |]; cbn [header_call]; unfold bind, ret.
  - pose proof (enqueue_effect T to_string q v) as He.
    destruct (enqueue _ _ _ _); [tauto|contradiction|exact I].
  - pose proof (dequeue_effect T to_string q) as He.
    destruct (dequeue _ _ _); [tauto| |exact I]. destruct He as [-> _]. reflexivity.
  - pose proof (peek_effect T q) as He.
    destruct (peek _ _); [now subst|now subst|exact I].
  - rewrite clear_ret. reflexivity.
Qed.

Lemma run_capacity (ops : list (op T)) (q q' : circular_queue T) (rs : list (reply T)) :
  run T (header_call T to_string) ops q = Some (rs, q') ->
  capacity T q' = capacity T q.
Proof.
  revert q rs. induction ops as [|o ops' IH]; intros q rs R; cbn [run] in R.
  - now injection R as <- <-.
  - pose proof (header_call_capacity o q) as Hc.
    destruct (header_call T to_string o q) as [x s|e s|]; [| |discriminate];
      destruct (run T _ ops' s) as [[rs' s'']|] eqn:R'; try discriminate;
      injection R as <- <-; rewrite (IH _ _ R'); exact Hc.
Qed.

(** *** The comparison *)

(** C9, amended: started with the same capacity and given the same calls of
    [enqueue], [dequeue], [peek] and [clear], the header queue and the
    library queue are both defined throughout, every pair of replies agrees
    (they are equal, or the header threw [underflow_error] where the library
    returned the default element), the replies are equal outright when the
    header never threw, and at the end both hold the same elements in the
    same order. *)
Theorem variants_agree_except_on_empty
  (n : Z) (cb1 cb2 : callback)
  (q1 : circular_queue T) (q2 : Library.circular_queue T) (ops : list (op T)) :
  in_int n ->
  construct T T_default n cb1 = inr q1 ->
  Library.construct T n cb2 = inr q2 ->
  exists rs1 q1' rs2 q2',
    run T (header_call T to_string) ops q1 = Some (rs1, q1') /\
    run T (library_call T T_default to_string) ops q2 = Some (rs2, q2') /\
    Forall2 (agree T T_default) rs1 rs2 /\
    (Forall (fun r => forall e, r <> Threw T e) rs1 -> rs1 = rs2) /\
    Library.contents T q2' = map Some (contents T T_default q1') /\
    (n <= 1073741824 ->
     get_all_elements T q1' = Ret (contents T T_default q1') q1').
Proof.
  intros Hn H1 H2. pose proof (sim_construct n cb1 cb2 q1 q2 Hn H1 H2) as Hsim.
  destruct (sim_run ops q1 q2 Hsim) as (rs1 & q1' & rs2 & q2' & R1 & R2 & Hag & Hsim').
  exists rs1, q1', rs2, q2'. split_all; auto.
  - clear R1 R2. induction Hag as [|r1 r2 l1 l2 Hr Hrest IH]; intros Hno; [reflexivity|].
    inversion Hno as [|? ? Hr1 Hl1]; subst.
    f_equal; [|now apply IH].
    destruct Hr as [E|[E _]]; [assumption|]. exfalso. eapply Hr1. exact E.
  - now apply sim_contents.
  - intros Hsafe. pose proof Hsim' as (Hwf' & _).
    apply get_all_elements_ret; [assumption|].
    apply index_safe_front; [assumption|].
    assert (Hcap : capacity T q1' = n).
    { rewrite (run_capacity ops q1 q1' rs1 R1).
      destruct (Z.le_gt_cases n 0).
      - rewrite construct_throw in H1 by assumption. discriminate.
      - rewrite construct_ret in H1 by assumption. now injection H1 as <-. }
    unfold index_safe, INT_MAX. lia.
Qed.

End VariantsProperties.

(** ** The comparison at [int], on concrete queues *)

Section VariantsExamples.
Import Variants.

Lemma variants_agree_except_on_empty_witness :
  exists rs1 q1' rs2 q2',
    run Z (header_call Z int_to_string) [OpEnqueue Z 1; OpEnqueue Z 2; OpEnqueue Z 3; OpDequeue Z]
      (CircularQueue.mk Z [0; 0] (-1) (-1) 0 2 None) = Some (rs1, q1') /\
    run Z (library_call Z 0 int_to_string)
      [OpEnqueue Z 1; OpEnqueue Z 2; OpEnqueue Z 3; OpDequeue Z]
      (Library.mk Z [None; None] (-1) (-1) 2 None) = Some (rs2, q2') /\
    rs1 = rs2 /\ rs1 = [Returned Z None; Returned Z None; Returned Z None; Returned Z (Some 2)].
Proof.
  destruct (variants_agree_except_on_empty Z 0 int_to_string 2 None None
              (CircularQueue.mk Z [0; 0] (-1) (-1) 0 2 None)
              (Library.mk Z [None; None] (-1) (-1) 2 None)
              [OpEnqueue Z 1; OpEnqueue Z 2; OpEnqueue Z 3; OpDequeue Z])
    as (rs1 & q1' & rs2 & q2' & R1 & R2 & _ & Heq & _);
    [vm_compute; split; discriminate | reflexivity | reflexivity |].
  exists rs1, q1', rs2, q2'.
  assert (E : rs1 = [Returned Z None; Returned Z None; Returned Z None; Returned Z (Some 2)])
    by (vm_compute in R1; congruence).
  repeat split; try assumption.
  apply Heq. rewrite E. repeat constructor; discriminate.
Defined.

(** C9, as stated, fails on the shortest run there is: one [dequeue] on a
    new queue of capacity 1.  The header throws; the library returns 0. *)
Lemma variants_differ_on_empty_dequeue :
  exists q1 q2,
    CircularQueue.construct Z 0 1 None = inr q1 /\
    Library.construct Z 1 None = inr q2 /\
    replies Z (header_call Z int_to_string) [OpDequeue Z] q1
      = Some [Threw Z (underflow_error "Queue is empty")] /\
    replies Z (library_call Z 0 int_to_string) [OpDequeue Z] q2
      = Some [Returned Z (Some 0)] /\
    replies Z (header_call Z int_to_string) [OpDequeue Z] q1
      <> replies Z (library_call Z 0 int_to_string) [OpDequeue Z] q2.
Proof.
  do 2 eexists. repeat split; try reflexivity. vm_compute. discriminate.
Qed.

End VariantsExamples.

(** ** More of the header-only implementation *)

Section CircularQueueMore.
Import CircularQueue.
Variable T : Type.
Variable T_default : T.
Variable to_string : T -> string.

Arguments int_add : simpl never.
Arguments int_sub : simpl never.
Arguments int_rem : simpl never.
Arguments array_get : simpl never.
Arguments array_set : simpl never.
Arguments Z.modulo : simpl never.
Arguments Z.add : simpl never.
Arguments Z.sub : simpl never.
Arguments Z.mul : simpl never.
Arguments Z.eqb : simpl never.
Arguments Z.ltb : simpl never.
Arguments Z.leb : simpl never.
Arguments Z.geb : simpl never.
Arguments Z.of_nat : simpl never.
Arguments Z.to_nat : simpl never.
Arguments String.append : simpl never.

Ltac unfold_cxx :=
  unfold bind, get, ret, throw, undefined,
    set_arr, set_front, set_rear, set_size, set_capacity, notify, load, store in *.
Ltac int_ok := unfold in_int, INT_MIN, INT_MAX in *; lia.
Ltac split_all := repeat match goal with |- _ /\ _ => split end.

(** *** Indexed access *)


(** *** clear *)

(** X2: [clear] on a well-formed queue returns, keeps the capacity and the
    storage, and leaves a queue that reports itself empty and lists no
    element; whatever is enqueued next, up to the capacity, is then listed
    alone and in order: nothing of the old contents comes back. *)
Theorem clear_forgets_everything (q : circular_queue T) (vs : list T) :
  wf T q -> Z.of_nat (List.length vs) <= capacity T q ->
  exists q0 q1,
    clear T q = Ret tt q0 /\
    capacity T q0 = capacity T q /\ arr T q0 = arr T q /\
    is_empty T q0 = Ret true q0 /\
    get_all_elements T q0 = Ret [] q0 /\
    enqueue_all T to_string vs q0 = Ret tt q1 /\
    get_all_elements T q1 = Ret vs q1 /\
    size T q1 = Z.of_nat (List.length vs).
Proof.
  intros Hwf Hroom.
  pose proof (clear_ret T q) as Hclr.
  pose proof (clear_wf T q _ Hwf Hclr) as Hwf0.
  match type of Hclr with _ = Ret tt ?s => remember s as q0 eqn:Hq0 end.
  assert (Hs0 : size T q0 = 0) by (rewrite Hq0; reflexivity).
  assert (Hc0 : capacity T q0 = capacity T q) by (rewrite Hq0; reflexivity).
  destruct (enqueue_all_ret T T_default to_string q0 vs Hwf0 (or_introl Hs0))
    as (q1 & Hrun & Hwf1 & Hf1 & Hcap1 & Hs1 & Hcont1); [lia|].
  exists q0, q1. split_all; auto.
  - rewrite Hq0. reflexivity.
  - unfold is_empty. unfold_cxx. cbn. now rewrite Hs0.
  - rewrite (get_all_elements_ret T T_default) by (auto; lia).
    now rewrite (contents_empty T T_default q0 Hs0).
  - rewrite (get_all_elements_ret T T_default); auto.
    + rewrite Hcont1, (contents_empty T T_default q0 Hs0). reflexivity.
    + intros Hpos. destruct Hwf1 as (_ & Hc' & Hsz' & _). destruct Hf1; lia.
  - lia.
Qed.


(** *** resize *)


(** *** First in, first out *)

(** X5: [dequeue] takes the oldest element.  If [get_all_elements] lists
    [x :: rest], [dequeue] returns [x] and [get_all_elements] then lists
    [rest]; if it lists nothing, [dequeue] throws and changes nothing. *)
Theorem dequeue_takes_oldest (q : circular_queue T) (l : list T) :
  wf T q -> index_safe T q -> get_all_elements T q = Ret l q ->
  match l with
  | [] => dequeue T to_string q = Throw (underflow_error "Queue is empty") q
  | x :: rest =>
      exists q', dequeue T to_string q = Ret x q' /\
                 wf T q' /\
                 get_all_elements T q' = Ret rest q'
  end.
Proof.
  intros Hwf Hs Hl. pose proof Hwf as (Hlen & Hcap & Hsz & Hidx).
  rewrite (get_all_elements_ret T T_default) in Hl by auto using index_safe_front.
  injection Hl as <-.
  destruct (Z.eq_dec (size T q) 0) as [E|E].
  - rewrite (contents_empty T T_default q E). now apply dequeue_empty.
  - pose proof (dequeue_ret T T_default to_string q Hwf ltac:(lia)) as Hd.
    pose proof (dequeue_wf T T_default to_string q _ _ Hwf Hd) as Hwf'.
    pose proof (contents_dequeue T T_default to_string q _ _ Hwf Hd) as Hc.
    match type of Hd with _ = Ret ?v ?s => remember s as q' eqn:Hq'; remember v as x eqn:Hx end.
    rewrite Hc. exists q'. split_all; auto.
    apply get_all_elements_ret; auto.
    apply index_safe_front; auto.
    unfold index_safe in *. rewrite Hq'. exact Hs.
Qed.

Lemma dequeue_n_ret (n : nat) (q : circular_queue T) :
  wf T q -> Z.of_nat n <= size T q ->
  exists q',
    dequeue_n T to_string n q = Ret (firstn n (contents T T_default q)) q' /\
    wf T q' /\
    capacity T q' = capacity T q /\
    size T q' = size T q - Z.of_nat n /\
    contents T T_default q' = skipn n (contents T T_default q).
Proof.
  revert q. induction n as [|n IH]; intros q Hwf Hn.
  - exists q. cbn [dequeue_n firstn skipn]. unfold ret. split_all; auto. lia.
  - pose proof Hwf as (Hlen & Hcap & Hsz & Hidx).
    pose proof (dequeue_ret T T_default to_string q Hwf ltac:(lia)) as Hd.
    pose proof (dequeue_wf T T_default to_string q _ _ Hwf Hd) as Hwf'.
    pose proof (contents_dequeue T T_default to_string q _ _ Hwf Hd) as Hc.
    match type of Hd with _ = Ret ?v ?s => remember s as q1 eqn:Hq1; remember v as x eqn:Hx end.
    assert (Hs1 : size T q1 = size T q - 1) by (rewrite Hq1; reflexivity).
    assert (Hc1 : capacity T q1 = capacity T q) by (rewrite Hq1; reflexivity).
    destruct (IH q1 Hwf' ltac:(lia)) as (q' & Hrun & Hwfq' & Hcap' & Hs' & Hcont').
    exists q'. cbn [dequeue_n]. unfold bind. rewrite Hd, Hrun. unfold ret.
    rewrite Hc. cbn [firstn skipn]. split_all; auto; lia.
Qed.

Lemma fill_fresh_contents (n : Z) (cb : callback) (q0 : circular_queue T) (vs : list T) :
  in_int n -> construct T T_default n cb = inr q0 ->
  Z.of_nat (List.length vs) <= n ->
  exists q,
    enqueue_all T to_string vs q0 = Ret tt q /\
    wf T q /\ capacity T q = n /\
    size T q = Z.of_nat (List.length vs) /\
    contents T T_default q = vs /\
    (size T q = 0 \/ front T q = 0).
Proof.
  intros Hn Hc Hlen. pose proof (construct_wf T T_default n cb q0 Hn Hc) as Hwf.
  destruct (Z.le_gt_cases n 0) as [Hle|Hgt].
  { rewrite construct_throw in Hc by assumption. discriminate. }
  rewrite construct_ret in Hc by assumption. injection Hc as <-.
  destruct (enqueue_all_ret T T_default to_string _ vs Hwf (or_introl eq_refl))
    as (q & Hrun & Hwf' & Hf & Hcap & Hs & Hcont); [cbn; lia|].
  cbn in Hcap, Hs, Hcont.
  exists q. split_all; auto.
Qed.

(** X6: what goes in comes out in the same order.  After construction with
    capacity [n], enqueueing [vs] (no more than [n] values) and then calling
    [dequeue] as many times returns exactly [vs] and leaves the queue
    empty. *)
Theorem enqueue_then_dequeue_round_trip
  (n : Z) (cb : callback) (q0 : circular_queue T) (vs : list T) :
  in_int n -> construct T T_default n cb = inr q0 ->
  Z.of_nat (List.length vs) <= n ->
  exists q q',
    enqueue_all T to_string vs q0 = Ret tt q /\
    dequeue_n T to_string (List.length vs) q = Ret vs q' /\
    is_empty T q' = Ret true q' /\
    dequeue T to_string q' = Throw (underflow_error "Queue is empty") q'.
Proof.
  intros Hn Hc Hlen.
  destruct (fill_fresh_contents n cb q0 vs Hn Hc Hlen)
    as (q & Hrun & Hwf & Hcap & Hs & Hcont & _).
  destruct (dequeue_n_ret (List.length vs) q Hwf ltac:(lia))
    as (q' & Hdeq & Hwf' & Hcap' & Hs' & Hcont').
  exists q, q'. split_all; auto.
  - rewrite Hdeq, Hcont. now rewrite firstn_all.
  - unfold is_empty. unfold_cxx. cbn. rewrite Hs'.
    destruct (Z.eqb_spec (size T q - Z.of_nat (List.length vs)) 0); [reflexivity|lia].
  - apply dequeue_empty. lia.
Qed.


(** *** A ring keeps the most recent elements *)

Lemma keep_last_all {A} (c : nat) (l : list A) :
  (List.length l <= c)%nat -> keep_last c l = l.
Proof.
  intros H. unfold keep_last.
  replace (List.length l - c)%nat with 0%nat by lia. reflexivity.
Qed.

Lemma keep_last_app {A} (c : nat) (a b : list A) :
  keep_last c (keep_last c a ++ b) = keep_last c (a ++ b).
Proof.
  destruct (Nat.le_gt_cases (List.length a) c) as [H|H].
  - now rewrite (keep_last_all c a H).
  - unfold keep_last.
    rewrite !length_app, length_skipn.
    replace (List.length a - (List.length a - c) + List.length b - c)%nat
      with (List.length b) by lia.
    replace (List.length a + List.length b - c)%nat
      with (List.length b + (List.length a - c))%nat by lia.
    rewrite <- skipn_skipn.
    f_equal. rewrite skipn_app.
    replace (List.length a - c - List.length a)%nat with 0%nat by lia.
    reflexivity.
Qed.

Lemma contents_enqueue (q q' : circular_queue T) (v : T) :
  wf T q -> enqueue T to_string v q = Ret tt q' ->
  contents T T_default q' =
  keep_last (Z.to_nat (capacity T q)) (contents T T_default q ++ [v]).
Proof.
  intros Hwf H. pose proof Hwf as (Hlen & Hcap & Hsz & Hidx).
  destruct (Z.eq_dec (size T q) (capacity T q)) as [E|E].
  - rewrite (contents_enqueue_full T T_default to_string q q' v Hwf E H).
    unfold keep_last. rewrite length_app, contents_length. cbn [List.length].
    replace (Z.to_nat (size T q) + 1 - Z.to_nat (capacity T q))%nat with 1%nat by lia.
    pose proof (contents_length T T_default q) as Hl.
    destruct (contents T T_default q); [cbn in Hl; lia|reflexivity].
  - rewrite (contents_enqueue_not_full T T_default to_string q q' v Hwf ltac:(lia) H).
    symmetry. apply keep_last_all.
    rewrite length_app, contents_length. cbn [List.length]. lia.
Qed.

Lemma enqueue_all_keep_last (q : circular_queue T) (vs : list T) :
  wf T q ->
  exists q',
    enqueue_all T to_string vs q = Ret tt q' /\
    wf T q' /\ capacity T q' = capacity T q /\
    contents T T_default q' =
      keep_last (Z.to_nat (capacity T q)) (contents T T_default q ++ vs).
Proof.
  revert q. induction vs as [|v vs IH]; intros q Hwf.
  - exists q. cbn [enqueue_all]. unfold ret. split_all; auto.
    rewrite app_nil_r. symmetry. apply keep_last_all.
    destruct Hwf as (_ & _ & Hsz & _). rewrite contents_length. lia.
  - pose proof (enqueue_ret T to_string q v Hwf) as Hret.
    pose proof (enqueue_wf T to_string q _ v Hwf Hret) as Hwf1.
    pose proof (contents_enqueue q _ v Hwf Hret) as Hc1.
    match type of Hret with _ = Ret tt ?s => remember s as q1 eqn:Hq1 end.
    assert (Hcap1 : capacity T q1 = capacity T q) by (rewrite Hq1; reflexivity).
    destruct (IH q1 Hwf1) as (q' & Hrun & Hwf' & Hcap' & Hc').
    exists q'. cbn [enqueue_all]. unfold bind. rewrite Hret, Hrun.
    split_all; auto; try congruence.
    rewrite Hc', Hc1, Hcap1, keep_last_app, <- app_assoc. reflexivity.
Qed.

(** X16: in any well-formed queue of capacity at most 2^30, wrapped around
    or not, [enqueue] returns and [get_all_elements] afterwards lists what it
    listed before followed by the new value, cut down to the last [capacity]
    elements; [get_size] grows by one up to the capacity. *)
Theorem enqueue_appends_within_capacity (q : circular_queue T) (v : T) (l : list T) :
  wf T q -> index_safe T q -> get_all_elements T q = Ret l q ->
  exists q',
    enqueue T to_string v q = Ret tt q' /\
    get_all_elements T q' = Ret (keep_last (Z.to_nat (capacity T q)) (l ++ [v])) q' /\
    get_size T q' = Ret (Z.min (size T q + 1) (capacity T q)) q' /\
    get_capacity T q' = Ret (capacity T q) q'.
Proof.
  intros Hwf Hs Hl. pose proof Hwf as (Hlen & Hcap & Hsz & Hidx).
  rewrite (get_all_elements_ret T T_default) in Hl by auto using index_safe_front.
  injection Hl as <-.
  pose proof (enqueue_ret T to_string q v Hwf) as Hret.
  pose proof (enqueue_wf T to_string q _ v Hwf Hret) as Hwf'.
  pose proof (contents_enqueue q _ v Hwf Hret) as Hc.
  match type of Hret with _ = Ret tt ?s => remember s as q' eqn:Hq' end.
  assert (Hcap' : capacity T q' = capacity T q) by (rewrite Hq'; reflexivity).
  assert (Hs' : size T q' = Z.min (size T q + 1) (capacity T q)).
  { rewrite Hq'. cbn [size]. destruct (Z.eqb_spec (size T q) (capacity T q)); lia. }
  exists q'. split_all; auto.
  - rewrite (get_all_elements_ret T T_default); auto.
    + now rewrite Hc.
    + apply index_safe_front; auto. unfold index_safe. now rewrite Hcap'.
  - unfold get_size. unfold_cxx. cbn. now rewrite Hs'.
  - unfold get_capacity. unfold_cxx. cbn. now rewrite Hcap'.
Qed.

(** X7: however many values are enqueued after construction with capacity
    [n], every call returns, and [get_all_elements] then lists the last [n]
    of them in order (all of them when there are no more than [n]); their
    number is what [get_size] returns. *)
Theorem ring_keeps_most_recent
  (n : Z) (cb : callback) (q0 : circular_queue T) (vs : list T) :
  in_int n -> n <= 1073741824 ->
  construct T T_default n cb = inr q0 ->
  exists q,
    enqueue_all T to_string vs q0 = Ret tt q /\
    get_all_elements T q = Ret (keep_last (Z.to_nat n) vs) q /\
    get_size T q = Ret (Z.min (Z.of_nat (List.length vs)) n) q.
Proof.
  intros Hn Hsafe Hc. pose proof (construct_wf T T_default n cb q0 Hn Hc) as Hwf.
  destruct (Z.le_gt_cases n 0) as [Hle|Hgt].
  { rewrite construct_throw in Hc by assumption. discriminate. }
  rewrite construct_ret in Hc by assumption. injection Hc as <-.
  destruct (enqueue_all_keep_last _ vs Hwf) as (q & Hrun & Hwf' & Hcap & Hcont).
  cbn [capacity] in Hcap, Hcont.
  change (contents T T_default _ ++ vs) with vs in Hcont.
  assert (Hs : index_safe T q) by (unfold index_safe, INT_MAX; lia).
  exists q. split_all; auto.
  - rewrite (get_all_elements_ret T T_default) by auto using index_safe_front.
    now rewrite Hcont.
  - unfold get_size. unfold_cxx. cbn. f_equal.
    pose proof (contents_length T T_default q) as Hl. rewrite Hcont in Hl.
    unfold keep_last in Hl. rewrite length_skipn in Hl.
    destruct Hwf' as (_ & _ & Hsz & _). lia.
Qed.


(** *** The representation invariant across calls *)

Lemma invoke_capacity (q q' : circular_queue T) (m : method T) :
  state_after T (invoke T T_default to_string m q) = Some q' ->
  capacity T q' = capacity T q \/
  (exists k, m = Resize T k /\ capacity T q' = k).
Proof.
  destruct m as [v| | |index| | |new_capacity| | | |]; cbn [invoke]; unfold bind, ret.
  - pose proof (enqueue_effect T to_string q v) as H.
    destruct (enqueue _ _ _ _); cbn; try discriminate; [|contradiction].
    intros [= <-]. left. tauto.
  - pose proof (dequeue_effect T to_string q) as H.
    destruct (dequeue _ _ _); cbn; try discriminate; intros [= <-]; left.
    + tauto.
    + destruct H as [-> _]. reflexivity.
  - pose proof (peek_effect T q) as H.
    destruct (peek _ _); cbn; try discriminate; intros [= <-]; left; now subst.
  - pose proof (get_element_at_effect T q index) as H.
    destruct (get_element_at _ _ _); cbn; try discriminate; intros [= <-]; left; now subst.
  - pose proof (get_all_elements_effect T q) as H.
    destruct (get_all_elements _ _); cbn; try discriminate; intros [= <-]; left;
      [now subst|contradiction].
  - rewrite clear_ret. cbn. intros [= <-]. left. reflexivity.
  - pose proof (resize_effect T T_default q new_capacity) as H.
    destruct (resize _ _ _ _); cbn; try discriminate; intros [= <-].
    + right. exists new_capacity. split; [reflexivity|tauto].
    + left. destruct H as [-> _]. reflexivity.
  - cbn. intros [= <-]. left. reflexivity.
  - cbn. intros [= <-]. left. reflexivity.
  - cbn. intros [= <-]. left. reflexivity.
  - cbn. intros [= <-]. left. reflexivity.
Qed.

(** X8: a well-formed queue of capacity at most 2^30 stays one.  Whatever
    public method is called on it, with whatever [int] arguments, as long as
    a [resize] asks for a capacity between 1 and 2^30, the call is defined
    (it returns or throws; no division by zero, no access outside the array)
    and leaves a well-formed queue of capacity at most 2^30. *)
Theorem calls_keep_well_formed (q : circular_queue T) (m : method T) :
  wf T q -> index_safe T q -> int_args T m ->
  (forall k, m = Resize T k -> 1 <= k <= 1073741824) ->
  exists q',
    state_after T (invoke T T_default to_string m q) = Some q' /\
    wf T q' /\ index_safe T q'.
Proof.
  intros Hwf Hs Hargs Hk.
  pose proof (invoke_defined T T_default to_string q m Hwf Hs) as Hd.
  destruct (state_after T (invoke T T_default to_string m q)) as [q'|] eqn:E.
  2:{ destruct (invoke _ _ _ _ _); cbn in E; try discriminate. contradiction. }
  exists q'. split; [reflexivity|]. split.
  - apply (invoke_wf T T_default to_string q q' m); auto.
    intros ->. specialize (Hk 0 eq_refl). lia.
  - destruct (invoke_capacity q q' m E) as [Hc|(k & -> & Hc)].
    + unfold index_safe in *. now rewrite Hc.
    + specialize (Hk k eq_refl). unfold index_safe, INT_MAX. lia.
Qed.

End CircularQueueMore.

Section CircularQueueDisplay.
Import CircularQueue.
Variable T : Type.
Variable T_default : T.
Variable print : T -> string.

Arguments int_add : simpl never.
Arguments int_rem : simpl never.
Arguments array_get : simpl never.
Arguments Z.modulo : simpl never.
Arguments Z.add : simpl never.
Arguments Z.sub : simpl never.
Arguments Z.eqb : simpl never.
Arguments Z.of_nat : simpl never.
Arguments Z.to_nat : simpl never.
Arguments String.append : simpl never.

Ltac unfold_cxx :=
  unfold bind, get, ret, throw, undefined,
    set_arr, set_front, set_rear, set_size, set_capacity, notify, load, store in *.
Ltac int_ok := unfold in_int, INT_MIN, INT_MAX in *; lia.

(** *** display *)



End CircularQueueDisplay.

(** ** More of the [library.h] implementation *)

Section LibraryMore.
Import CircularQueue Variants.
Variable T : Type.
Variable T_default : T.
Variable to_string : T -> string.

Arguments int_add : simpl never.
Arguments int_sub : simpl never.
Arguments int_rem : simpl never.
Arguments array_get : simpl never.
Arguments array_set : simpl never.
Arguments Z.modulo : simpl never.
Arguments Z.add : simpl never.
Arguments Z.sub : simpl never.
Arguments Z.mul : simpl never.
Arguments Z.eqb : simpl never.
Arguments Z.ltb : simpl never.
Arguments Z.leb : simpl never.
Arguments Z.of_nat : simpl never.
Arguments Z.to_nat : simpl never.
Arguments String.append : simpl never.

Ltac unfold_lib :=
  unfold bind, get, ret, throw, undefined,
    Library.set_front, Library.set_rear, Library.notify, Library.notify_slot,
    Library.load, Library.store in *.
Ltac int_ok := unfold in_int, INT_MIN, INT_MAX in *; lia.
Ltac split_all := repeat match goal with |- _ /\ _ => split end.

(** Every library queue a caller can reach from a construction with a
    positive capacity corresponds to a well-formed header queue. *)
Lemma library_run_sim
  (n : Z) (cb : callback) (q0 q : Library.circular_queue T)
  (ops : list (op T)) (rs : list (reply T)) :
  in_int n -> 0 < n ->
  Library.construct T n cb = inr q0 ->
  run T (library_call T T_default to_string) ops q0 = Some (rs, q) ->
  exists q1, sim T T_default q1 q /\ capacity T q1 = n.
Proof.
  intros Hn Hpos Hc Hrun.
  pose proof (construct_ret T T_default n None Hpos) as Hc1.
  pose proof (sim_construct T T_default n None cb _ q0 Hn Hc1 Hc) as Hsim.
  destruct (sim_run T T_default to_string ops _ q0 Hsim)
    as (rs1 & q1' & rs2 & q2' & R1 & R2 & _ & Hsim').
  rewrite Hrun in R2. injection R2 as <- <-.
  exists q1'. split; [assumption|].
  now rewrite (run_capacity T to_string ops _ q1' rs1 R1).
Qed.

Lemma sim_contents_list (q1 : circular_queue T) (q2 : Library.circular_queue T) :
  sim T T_default q1 q2 ->
  Library.contents T q2 = map Some (contents T T_default q1) /\
  Z.of_nat (List.length (contents T T_default q1)) = size T q1 /\
  0 <= size T q1 <= capacity T q1.
Proof.
  intros Hsim. pose proof Hsim as (Hwf & _). destruct Hwf as (_ & _ & Hsz & _).
  split_all; try lia.
  - now apply sim_contents.
  - rewrite contents_length. lia.
Qed.

Lemma sim_is_empty (q1 : circular_queue T) (q2 : Library.circular_queue T) :
  sim T T_default q1 q2 ->
  Library.is_empty T q2 = Ret (size T q1 =? 0) q2.
Proof.
  intros (Hwf & Hc & Hf & Hr & Hemp & Hl & Harr).
  pose proof Hwf as (Hlen & Hcap & Hsz & Hidx).
  unfold Library.is_empty. unfold_lib. cbn. rewrite Hf. f_equal.
  destruct (Z.eqb_spec (size T q1) 0) as [E|E].
  - destruct (Hemp E) as [-> _]. reflexivity.
  - destruct Hidx as [Hf1 _]; [lia|]. apply Z.eqb_neq. lia.
Qed.

(** X10: the library queue wastes no slot.  In every state reached from a
    construction with capacity [n >= 1] by calls of [enqueue], [dequeue],
    [peek] and [clear], the queue holds at most [n] elements, [is_full]
    returns true exactly when it holds [n], [is_empty] exactly when it holds
    none, and neither changes the queue. *)
Theorem library_full_exactly_at_capacity
  (n : Z) (cb : callback) (q0 q : Library.circular_queue T)
  (ops : list (op T)) (rs : list (reply T)) :
  in_int n -> 0 < n ->
  Library.construct T n cb = inr q0 ->
  run T (library_call T T_default to_string) ops q0 = Some (rs, q) ->
  exists l : list T,
    Library.contents T q = map Some l /\
    Z.of_nat (List.length l) <= n /\
    Library.is_full T q = Ret (Z.of_nat (List.length l) =? n) q /\
    Library.is_empty T q = Ret (Z.of_nat (List.length l) =? 0) q.
Proof.
  intros Hn Hpos Hc Hrun.
  destruct (library_run_sim n cb q0 q ops rs Hn Hpos Hc Hrun) as (q1 & Hsim & Hcap).
  destruct (sim_contents_list q1 q Hsim) as (Hcont & Hlen & Hsz).
  exists (contents T T_default q1). rewrite Hlen. split_all; auto; try lia.
  - rewrite (sim_is_full T T_default q1 q Hsim). now rewrite Hcap.
  - apply sim_is_empty. assumption.
Qed.

Lemma library_call_ret (o : op T) (q1 : circular_queue T) (q2 : Library.circular_queue T) :
  sim T T_default q1 q2 ->
  exists x q2', library_call T T_default to_string o q2 = Ret x q2'.
Proof.
  intros Hsim. pose proof Hsim as (Hwf & Hc & Hf & Hr & Hemp & Hl & Harr).
  pose proof Hwf as (Hlen & Hcap & Hsz & Hidx).
  destruct o as [v| | |]; cbn [library_call]; unfold bind, ret.
  - rewrite (library_enqueue_ret T T_default to_string q1 q2 v Hsim). eauto.
  - destruct (Z.eq_dec (size T q1) 0) as [E|E].
    + rewrite library_dequeue_empty by (destruct (Hemp E); congruence). eauto.
    + rewrite (library_dequeue_ret T T_default to_string q1 q2 Hsim) by lia. eauto.
  - destruct (Z.eq_dec (size T q1) 0) as [E|E].
    + rewrite library_peek_empty by (destruct (Hemp E); congruence). eauto.
    + rewrite (library_peek_ret T T_default to_string q1 q2 Hsim) by lia. eauto.
  - eexists. eexists. reflexivity.
Qed.

(** X11: the library queue never throws and never reads a slot it has not
    written.  In every state reached from a construction with capacity
    [n >= 1], each of [enqueue], [dequeue], [peek] and [clear] returns; on a
    queue that reports itself empty, [dequeue] and [peek] return the
    default-constructed element. *)
Theorem library_calls_always_return
  (n : Z) (cb : callback) (q0 q : Library.circular_queue T)
  (ops : list (op T)) (rs : list (reply T)) (o : op T) :
  in_int n -> 0 < n ->
  Library.construct T n cb = inr q0 ->
  run T (library_call T T_default to_string) ops q0 = Some (rs, q) ->
  (exists x q', library_call T T_default to_string o q = Ret x q') /\
  (Library.is_empty T q = Ret true q ->
   (exists q', Library.dequeue T T_default to_string q = Ret T_default q') /\
   (exists q', Library.peek T T_default to_string q = Ret T_default q')).
Proof.
  intros Hn Hpos Hc Hrun.
  destruct (library_run_sim n cb q0 q ops rs Hn Hpos Hc Hrun) as (q1 & Hsim & Hcap).
  split.
  - exact (library_call_ret o q1 q Hsim).
  - intros He. unfold Library.is_empty in He. unfold_lib. cbn in He.
    injection He as He. apply Z.eqb_eq in He.
    rewrite library_dequeue_empty, library_peek_empty by assumption.
    split; eexists; reflexivity.
Qed.


Lemma contents_head (q1 : circular_queue T) :
  wf T q1 -> 0 < size T q1 ->
  exists rest,
    contents T T_default q1 =
    nth (Z.to_nat (front T q1)) (arr T q1) T_default :: rest.
Proof.
  intros Hwf Hpos. pose proof Hwf as (Hlen & Hcap & Hsz & Hidx).
  destruct Hidx as [Hf _]; [assumption|].
  pose proof (contents_length T T_default q1) as Hl.
  pose proof (nth_contents_Z T T_default q1 0 ltac:(lia)) as H0.
  unfold slot in H0. rewrite Z.add_0_r, Z.mod_small in H0 by lia.
  destruct (contents T T_default q1) as [|x rest]; [cbn in Hl; lia|].
  exists rest. change (Z.to_nat 0) with 0%nat in H0. cbn [nth] in H0. now rewrite H0.
Qed.

(** X12: [enqueue] on the library queue keeps the most recent elements.  In
    every state reached from a construction with capacity [n >= 1], [enqueue]
    returns and the queue then holds its former elements followed by the new
    value, without the oldest one if it held [n] already.  A callback is told
    of the eviction first ("Dequeued: ...") and then of the insertion
    ("Enqueued: ..."). *)
Theorem library_enqueue_evicts_oldest
  (n : Z) (cb : callback) (q0 q : Library.circular_queue T)
  (ops : list (op T)) (rs : list (reply T)) (v : T) (lg : list string) :
  in_int n -> 0 < n ->
  Library.construct T n cb = inr q0 ->
  run T (library_call T T_default to_string) ops q0 = Some (rs, q) ->
  Library.logger T q = Some lg ->
  exists (l : list T) q',
    Library.contents T q = map Some l /\
    Library.enqueue T T_default to_string v q = Ret tt q' /\
    Library.contents T q' = map Some (keep_last (Z.to_nat n) (l ++ [v])) /\
    Library.logger T q' =
      Some (lg ++ match l with
                  | x :: _ =>
                      if Z.of_nat (List.length l) =? n
                      then [("Dequeued: " ++ to_string x)%string] else []
                  | [] => []
                  end
               ++ [("Enqueued: " ++ to_string v)%string]).
Proof.
  intros Hn Hpos Hc Hrun Hlg.
  destruct (library_run_sim n cb q0 q ops rs Hn Hpos Hc Hrun) as (q1 & Hsim & Hcap).
  destruct (sim_contents_list q1 q Hsim) as (Hcont & Hlen & Hsz).
  pose proof Hsim as (Hwf & _).
  pose proof (enqueue_ret T to_string q1 v Hwf) as H1.
  pose proof (library_enqueue_ret T T_default to_string q1 q v Hsim) as H2.
  pose proof (sim_enqueue T T_default to_string _ _ _ _ v Hsim H1 H2) as Hsim'.
  pose proof (contents_enqueue T T_default to_string q1 _ v Hwf H1) as Hc1.
  match type of H2 with _ = Ret tt ?s => remember s as q' eqn:Hq' end.
  exists (contents T T_default q1), q'. split_all; auto.
  - rewrite (sim_contents T T_default _ q' Hsim'), Hc1, Hcap. reflexivity.
  - rewrite Hq'. cbn [Library.logger]. rewrite Hlg, Hlen, Hcap.
    destruct (Z.eqb_spec (size T q1) n) as [E|E].
    + destruct (contents_head q1 Hwf ltac:(lia)) as (rest & ->).
      cbn [call app]. rewrite <- app_assoc. reflexivity.
    + destruct (contents T T_default q1); reflexivity.
Qed.

(** X13: [peek] and [dequeue] on the library queue answer with the oldest
    element.  In every state reached from a construction with capacity
    [n >= 1]: if the queue holds [x :: rest], [peek] returns [x] and leaves
    the elements alone, [dequeue] returns [x] and leaves [rest], and each
    tells a callback once; if it holds nothing, [dequeue] returns the
    default-constructed element, leaves the queue empty and tells the
    callback so. *)
Theorem library_dequeue_takes_oldest
  (n : Z) (cb : callback) (q0 q : Library.circular_queue T)
  (ops : list (op T)) (rs : list (reply T)) (lg : list string) :
  in_int n -> 0 < n ->
  Library.construct T n cb = inr q0 ->
  run T (library_call T T_default to_string) ops q0 = Some (rs, q) ->
  Library.logger T q = Some lg ->
  exists l : list T,
    Library.contents T q = map Some l /\
    match l with
    | [] =>
        exists q',
          Library.dequeue T T_default to_string q = Ret T_default q' /\
          Library.contents T q' = [] /\
          Library.logger T q' = Some (lg ++ ["Queue is empty! Cannot dequeue."%string])
    | x :: rest =>
        exists q' q'',
          Library.peek T T_default to_string q = Ret x q'' /\
          Library.contents T q'' = map Some (x :: rest) /\
          Library.logger T q'' = Some (lg ++ [("Peeked at: " ++ to_string x)%string]) /\
          Library.dequeue T T_default to_string q = Ret x q' /\
          Library.contents T q' = map Some rest /\
          Library.logger T q' = Some (lg ++ [("Dequeued: " ++ to_string x)%string])
    end.
Proof.
  intros Hn Hpos Hc Hrun Hlg.
  destruct (library_run_sim n cb q0 q ops rs Hn Hpos Hc Hrun) as (q1 & Hsim & Hcap).
  destruct (sim_contents_list q1 q Hsim) as (Hcont & Hlen & Hsz).
  pose proof Hsim as (Hwf & Hc2 & Hf & Hr & Hemp & Hl & Harr).
  exists (contents T T_default q1). split; [assumption|].
  destruct (Z.eq_dec (size T q1) 0) as [E|E].
  - rewrite (contents_empty T T_default q1 E) in *.
    rewrite library_dequeue_empty by (destruct (Hemp E); congruence).
    eexists. split_all; try reflexivity.
    + exact Hcont.
    + cbn [Library.logger]. now rewrite Hlg.
  - pose proof (dequeue_ret T T_default to_string q1 Hwf ltac:(lia)) as H1.
    pose proof (library_dequeue_ret T T_default to_string q1 q Hsim ltac:(lia)) as H2.
    destruct (sim_dequeue T T_default to_string _ _ _ _ _ _ Hsim H1 H2) as [_ Hsim'].
    pose proof (contents_dequeue T T_default to_string q1 _ _ Hwf H1) as Hc1.
    pose proof (library_peek_ret T T_default to_string q1 q Hsim ltac:(lia)) as H3.
    match type of H2 with _ = Ret ?x ?s => remember s as q' eqn:Hq'; remember x as x0 eqn:Hx end.
    match type of H3 with _ = Ret _ ?s => remember s as q'' eqn:Hq'' end.
    match type of H1 with _ = Ret _ ?s => remember s as q1' eqn:Hq1' end.
    rewrite Hc1. exists q', q''. split_all; auto.
    + rewrite Hq''. rewrite <- Hc1. exact Hcont.
    + rewrite Hq''. cbn [Library.logger]. now rewrite Hlg.
    + exact (sim_contents T T_default q1' q' Hsim').
    + rewrite Hq'. cbn [Library.logger]. now rewrite Hlg.
Qed.

(** X14: [display] on the library queue lists the elements and stops.  In
    every state reached from a construction with capacity [n >= 1], with a
    callback set, the loop of [display] ends within [n] iterations; the
    callback is handed the elements, oldest first, and then the closing
    message, or the words "Queue is empty!" when there is none; the elements
    stay as they were. *)
Theorem library_display_lists_elements
  (n : Z) (cb : callback) (q0 q : Library.circular_queue T)
  (ops : list (op T)) (rs : list (reply T)) (lg : list string) (fuel : nat) :
  in_int n -> 0 < n ->
  Library.construct T n cb = inr q0 ->
  run T (library_call T T_default to_string) ops q0 = Some (rs, q) ->
  Library.logger T q = Some lg ->
  (Z.to_nat n <= fuel)%nat ->
  exists (l : list T) q',
    Library.contents T q = map Some l /\
    Library.display T to_string fuel q = Some (Ret tt q') /\
    Library.contents T q' = map Some l /\
    Library.logger T q' =
      Some (lg ++ match l with
                  | [] => ["Queue is empty!"%string]
                  | _ => map to_string l ++ ["Displayed queue elements."%string]
                  end).
Proof.
  intros Hn Hpos Hc Hrun Hlg Hfuel.
  destruct (library_run_sim n cb q0 q ops rs Hn Hpos Hc Hrun) as (q1 & Hsim & Hcap).
  destruct (sim_contents_list q1 q Hsim) as (Hcont & Hlen & Hsz).
  pose proof Hsim as (Hwf & Hc2 & Hf & Hr & Hemp & Hl & Harr).
  exists (contents T T_default q1).
  destruct (Z.eq_dec (size T q1) 0) as [E|E].
  - destruct (Hemp E) as [Ef _].
    rewrite (contents_empty T T_default q1 E) in *.
    exists (Library.mk T (Library.arr T q) (Library.front T q) (Library.rear T q)
              (Library.size T q) (Some (lg ++ ["Queue is empty!"%string]))).
    split_all.
    + exact Hcont.
    + unfold Library.display.
      replace (Library.front T q =? -1) with true
        by (symmetry; apply Z.eqb_eq; congruence).
      unfold Library.notify. now rewrite Hlg.
    + exact Hcont.
    + reflexivity.
  - rewrite (display_shows_contents T T_default to_string q1 q lg fuel Hsim) by (auto; lia).
    eexists. split_all; try reflexivity.
    + assumption.
    + exact Hcont.
    + cbn [Library.logger].
      destruct (contents_head q1 Hwf ltac:(lia)) as (rest & ->). reflexivity.
Qed.

(** X15: the library constructor does not check its capacity.  A negative
    length is refused by the allocation itself; any other is accepted and
    gives an empty queue, capacity 0 included, and on a queue of capacity 0
    the first [enqueue] takes a remainder modulo 0. *)
Theorem library_constructor_unchecked (n : Z) (cb : callback) (v : T) :
  (n < 0 -> Library.construct T n cb = inl bad_array_new_length) /\
  (0 <= n ->
   exists q,
     Library.construct T n cb = inr q /\
     Library.size T q = n /\
     Library.is_empty T q = Ret true q /\
     Library.contents T q = [] /\
     (n = 0 -> Library.enqueue T T_default to_string v q = Undefined)).
Proof.
  split.
  - intros H. unfold Library.construct. destruct (Z.ltb_spec n 0); [reflexivity|lia].
  - intros H. unfold Library.construct. destruct (Z.ltb_spec n 0); [lia|].
    eexists. split_all; try reflexivity.
    intros ->. reflexivity.
Qed.

End LibraryMore.

(** ** The further properties at [int], on concrete queues *)

Section MoreExamples.
Import CircularQueue Variants.

Ltac by_computation :=
  vm_compute; repeat split; intros; try discriminate; try reflexivity.


Lemma clear_forgets_everything_witness :
  exists q0 q1,
    clear Z (mk Z [3; 1; 2] 1 0 3 3 None) = Ret tt q0 /\
    enqueue_all Z int_to_string [7; 8] q0 = Ret tt q1 /\
    get_all_elements Z q1 = Ret [7; 8] q1.
Proof.
  destruct (clear_forgets_everything Z 0 int_to_string (mk Z [3; 1; 2] 1 0 3 3 None) [7; 8])
    as (q0 & q1 & Hclr & _ & _ & _ & _ & Hrun & Hall & _);
    [by_computation | by_computation |].
  exists q0, q1. repeat split; assumption.
Defined.



Lemma dequeue_takes_oldest_witness :
  exists q',
    dequeue Z int_to_string (mk Z [3; 1; 2] 1 0 3 3 None) = Ret 1 q' /\
    get_all_elements Z q' = Ret [2; 3] q'.
Proof.
  destruct (dequeue_takes_oldest Z 0 int_to_string (mk Z [3; 1; 2] 1 0 3 3 None) [1; 2; 3])
    as (q' & Hdeq & _ & Hall); [by_computation | by_computation | reflexivity |].
  exists q'. split; assumption.
Defined.

Lemma enqueue_then_dequeue_round_trip_witness :
  exists q q',
    enqueue_all Z int_to_string [10; 20; 30] (mk Z [0; 0; 0; 0; 0] (-1) (-1) 0 5 None)
      = Ret tt q /\
    dequeue_n Z int_to_string 3 q = Ret [10; 20; 30] q'.
Proof.
  destruct (enqueue_then_dequeue_round_trip Z 0 int_to_string 5 None
              (mk Z [0; 0; 0; 0; 0] (-1) (-1) 0 5 None) [10; 20; 30])
    as (q & q' & Hrun & Hdeq & _); [by_computation | by_computation | by_computation |].
  exists q, q'. split; assumption.
Defined.

Lemma ring_keeps_most_recent_witness :
  exists q,
    enqueue_all Z int_to_string [1; 2; 3; 4; 5] (mk Z [0; 0; 0] (-1) (-1) 0 3 None)
      = Ret tt q /\
    get_all_elements Z q = Ret [3; 4; 5] q /\
    get_size Z q = Ret 3 q.
Proof.
  destruct (ring_keeps_most_recent Z 0 int_to_string 3 None
              (mk Z [0; 0; 0] (-1) (-1) 0 3 None) [1; 2; 3; 4; 5])
    as (q & Hrun & Hall & Hsize); [by_computation | by_computation | by_computation |].
  exists q. repeat split; assumption.
Defined.

Lemma enqueue_appends_within_capacity_witness :
  exists q',
    enqueue Z int_to_string 4 (mk Z [3; 9; 1] 2 0 2 3 None) = Ret tt q' /\
    get_all_elements Z q' = Ret [1; 3; 4] q'.
Proof.
  destruct (enqueue_appends_within_capacity Z 0 int_to_string
              (mk Z [3; 9; 1] 2 0 2 3 None) 4 [1; 3])
    as (q' & Henq & Hall & _); [by_computation | by_computation | reflexivity |].
  exists q'. split; assumption.
Defined.

Lemma calls_keep_well_formed_witness :
  exists q',
    state_after Z (invoke Z 0 int_to_string (Resize Z 4) (mk Z [3; 1; 2] 1 0 3 3 None))
      = Some q' /\
    wf Z q'.
Proof.
  destruct (calls_keep_well_formed Z 0 int_to_string (mk Z [3; 1; 2] 1 0 3 3 None) (Resize Z 4))
    as (q' & Hstep & Hwf & _); [by_computation | by_computation | by_computation | |].
  - intros k [= <-]. by_computation.
  - exists q'. split; assumption.
Defined.


Lemma library_full_exactly_at_capacity_witness :
  Library.is_full Z (Library.mk Z [Some 1; Some 2] 0 1 2 (Some ["Enqueued: 1"; "Enqueued: 2"]))
    = Ret true (Library.mk Z [Some 1; Some 2] 0 1 2 (Some ["Enqueued: 1"; "Enqueued: 2"])).
Proof.
  destruct (library_full_exactly_at_capacity Z 0 int_to_string 2 (Some [])
              (Library.mk Z [None; None] (-1) (-1) 2 (Some []))
              (Library.mk Z [Some 1; Some 2] 0 1 2 (Some ["Enqueued: 1"; "Enqueued: 2"]))
              [OpEnqueue Z 1; OpEnqueue Z 2] [Returned Z None; Returned Z None])
    as (l & Hl & _ & Hfull & _);
    [by_computation | by_computation | reflexivity | reflexivity |].
  assert (El : l = [1; 2]).
  { vm_compute in Hl. destruct l as [|a [|b [|c l]]]; try discriminate.
    injection Hl as <- <-. reflexivity. }
  rewrite El in Hfull. exact Hfull.
Defined.

Lemma library_calls_always_return_witness :
  exists x q',
    library_call Z 0 int_to_string (OpDequeue Z)
      (Library.mk Z [None; None] (-1) (-1) 2 (Some [])) = Ret x q'.
Proof.
  destruct (library_calls_always_return Z 0 int_to_string 2 (Some [])
              (Library.mk Z [None; None] (-1) (-1) 2 (Some []))
              (Library.mk Z [None; None] (-1) (-1) 2 (Some []))
              [] [] (OpDequeue Z))
    as (Hret & _); [by_computation | by_computation | reflexivity | reflexivity |].
  exact Hret.
Defined.

Lemma library_enqueue_evicts_oldest_witness :
  exists q',
    Library.enqueue Z 0 int_to_string 3
      (Library.mk Z [Some 1; Some 2] 0 1 2 (Some ["Enqueued: 1"; "Enqueued: 2"]))
      = Ret tt q' /\
    Library.contents Z q' = [Some 2; Some 3] /\
    Library.logger Z q' =
      Some ["Enqueued: 1"; "Enqueued: 2"; "Dequeued: 1"; "Enqueued: 3"]%string.
Proof.
  destruct (library_enqueue_evicts_oldest Z 0 int_to_string 2 (Some [])
              (Library.mk Z [None; None] (-1) (-1) 2 (Some []))
              (Library.mk Z [Some 1; Some 2] 0 1 2 (Some ["Enqueued: 1"; "Enqueued: 2"]))
              [OpEnqueue Z 1; OpEnqueue Z 2] [Returned Z None; Returned Z None] 3
              ["Enqueued: 1"; "Enqueued: 2"]%string)
    as (l & q' & Hl & Henq & Hcont & Hlog);
    [by_computation | by_computation | reflexivity | reflexivity | reflexivity |].
  assert (El : l = [1; 2]).
  { vm_compute in Hl. destruct l as [|a [|b [|c l]]]; try discriminate.
    injection Hl as <- <-. reflexivity. }
  rewrite El in Hcont, Hlog. exists q'. repeat split; assumption.
Defined.

Lemma library_dequeue_takes_oldest_witness :
  exists q',
    Library.dequeue Z 0 int_to_string
      (Library.mk Z [Some 3; Some 2] 1 0 2
         (Some ["Enqueued: 1"; "Enqueued: 2"; "Dequeued: 1"; "Enqueued: 3"]))
      = Ret 2 q' /\
    Library.contents Z q' = [Some 3].
Proof.
  destruct (library_dequeue_takes_oldest Z 0 int_to_string 2 (Some [])
              (Library.mk Z [None; None] (-1) (-1) 2 (Some []))
              (Library.mk Z [Some 3; Some 2] 1 0 2
                 (Some ["Enqueued: 1"; "Enqueued: 2"; "Dequeued: 1"; "Enqueued: 3"]))
              [OpEnqueue Z 1; OpEnqueue Z 2; OpEnqueue Z 3]
              [Returned Z None; Returned Z None; Returned Z None]
              ["Enqueued: 1"; "Enqueued: 2"; "Dequeued: 1"; "Enqueued: 3"]%string)
    as (l & Hl & Hcase);
    [by_computation | by_computation | reflexivity | reflexivity | reflexivity |].
  assert (El : l = [2; 3]).
  { vm_compute in Hl. destruct l as [|a [|b [|c l]]]; try discriminate.
    injection Hl as <- <-. reflexivity. }
  rewrite El in Hcase. destruct Hcase as (q' & _ & _ & _ & _ & Hdeq & Hcont & _).
  exists q'. split; assumption.
Defined.

Lemma library_display_lists_elements_witness :
  exists q',
    Library.display Z int_to_string 2
      (Library.mk Z [Some 3; Some 2] 1 0 2
         (Some ["Enqueued: 1"; "Enqueued: 2"; "Dequeued: 1"; "Enqueued: 3"]))
      = Some (Ret tt q') /\
    Library.logger Z q' =
      Some ["Enqueued: 1"; "Enqueued: 2"; "Dequeued: 1"; "Enqueued: 3";
            "2"; "3"; "Displayed queue elements."]%string.
Proof.
  destruct (library_display_lists_elements Z 0 int_to_string 2 (Some [])
              (Library.mk Z [None; None] (-1) (-1) 2 (Some []))
              (Library.mk Z [Some 3; Some 2] 1 0 2
                 (Some ["Enqueued: 1"; "Enqueued: 2"; "Dequeued: 1"; "Enqueued: 3"]))
              [OpEnqueue Z 1; OpEnqueue Z 2; OpEnqueue Z 3]
              [Returned Z None; Returned Z None; Returned Z None]
              ["Enqueued: 1"; "Enqueued: 2"; "Dequeued: 1"; "Enqueued: 3"]%string 2%nat)
    as (l & q' & Hl & Hdisp & _ & Hlog);
    [by_computation | by_computation | reflexivity | reflexivity | reflexivity
    | vm_compute; auto |].
  assert (El : l = [2; 3]).
  { vm_compute in Hl. destruct l as [|a [|b [|c l]]]; try discriminate.
    injection Hl as <- <-. reflexivity. }
  rewrite El in Hlog. exists q'. split; assumption.
Defined.

Lemma library_constructor_unchecked_witness :
  Library.construct Z (-1) None = inl bad_array_new_length /\
  (exists q, Library.construct Z 0 None = inr q /\
             Library.enqueue Z 0 int_to_string 7 q = Undefined).
Proof.
  destruct (library_constructor_unchecked Z 0 int_to_string (-1) None 7) as (Hneg & _).
  destruct (library_constructor_unchecked Z 0 int_to_string 0 None 7) as (_ & Hzero).
  split; [apply Hneg; by_computation|].
  destruct Hzero as (q & Hc & _ & _ & _ & Hub); [by_computation|].
  exists q. split; [exact Hc|]. apply Hub. reflexivity.
Defined.

End MoreExamples.
